(** * ogspy: Open Graph inspection, validation and monitoring

    A shallow embedding of [main.go].  Go maps [map[string]string] are
    finite maps [gmap string string]; the pure helpers ([parseOG],
    [diffMaps], [printMissing]) are functions, and the two goroutine
    pipelines (the inspect worker pool and the monitor loop) are labelled
    transition systems whose labels are the scheduling choices and the
    answers of the network. *)

From Stdlib Require Import ZArith String Ascii DecimalString.
From stdpp Require Import gmap strings list fin_maps sorting.

Local Open Scope string_scope.
Local Open Scope list_scope.

(** ** Data model *)

(** [map[string]string]: the flat tag name / tag value snapshot. *)
Abbreviation Snapshot := (gmap string string).

(** [map[string][2]string]: for every differing key the tuple (old, new). *)
Abbreviation ChangeSet := (gmap string (string * string)).

(** Indexing a Go map: an absent key reads as the zero value, the empty
    string.  A nil map reads like an empty one. *)
Definition get (m : Snapshot) (k : string) : string := default "" (m !! k).

(** [for k := range m]: the keys of [m], in the order the runtime picks. *)
Definition range_keys {V} (m : gmap string V) : list string := (map_to_list m).*1.

(** ** diffMaps *)

(** First two loops of [diffMaps]: [keys[k] = struct{}{}] for every key. *)
Definition add_keys (keys : gset string) (ks : list string) : gset string :=
  foldl (fun acc k => {[k]} ∪ acc) keys ks.

(** Body of the third loop: [if old[k] != new[k] { diff[k] = ... }]. *)
Definition diff_step (old new : Snapshot) (diff : ChangeSet) (k : string) : ChangeSet :=
  if decide (get old k = get new k) then diff
  else <[k := (get old k, get new k)]> diff.

(** The third loop over an explicit iteration order [ks]. *)
Definition diff_over (old new : Snapshot) (ks : list string) : ChangeSet :=
  foldl (diff_step old new) ∅ ks.

Definition unified_keys (old new : Snapshot) : gset string :=
  add_keys (add_keys ∅ (range_keys old)) (range_keys new).

Definition diffMaps (old new : Snapshot) : ChangeSet :=
  diff_over old new (elements (unified_keys old new)).

(** ** HTTP layer *)

(** Go [error] values built by [fetchHTML]. *)
Inductive error :=
  | ErrTransport (msg : string)
    (** [http.NewRequestWithContext] or [client.Do] failed: DNS, connect,
        context deadline or client timeout *)
  | ErrStatus (code : Z) (status : string)
    (** [fmt.Errorf("HTTP %d: %s", resp.StatusCode, resp.Status)] *)
  | ErrDocument (msg : string)
    (** [goquery.NewDocumentFromReader] or [doc.Html] failed *)
  | ErrEncode (msg : string)
    (** [json.Encoder.Encode] could not write to stdout *)
  | ErrNoURLs
    (** [errors.New("no URLs provided")] *)
  | ErrInspection
    (** [errors.New("one or more URLs failed inspection")] *)
  | ErrMissingTags.
    (** [errors.New("required tags are missing")] *)

(** What the network answers to one GET: no response at all, or a status
    line with the body as goquery reads and re-serialises it. *)
Inductive Response :=
  | NoResponse (msg : string)
  | Reply (StatusCode : Z) (Status : string) (body : string + string).

Definition StatusBadRequest : Z := 400.

Definition fetchHTML (r : Response) : string + error :=
  match r with
  | NoResponse msg => inr (ErrTransport msg)
  | Reply code status body =>
      if (StatusBadRequest <=? code)%Z then inr (ErrStatus code status)
      else match body with
           | inl html => inl html
           | inr msg => inr (ErrDocument msg)
           end
  end.

(** ** parseOG *)

(** An element node with its attribute list ([html.Node.Attr]). *)
Record Node := { Attrs : list (string * string) }.

(** [Selection.Attr]: the value of the first attribute with that key. *)
Fixpoint attr_lookup (attrs : list (string * string)) (name : string) : option string :=
  match attrs with
  | [] => None
  | (k, v) :: rest => if String.eqb k name then Some v else attr_lookup rest name
  end.

Definition Attr (s : Node) (name : string) : option string :=
  attr_lookup (Attrs s) name.

Definition HasPrefix (s pre : string) : bool := String.prefix pre s.

Definition TrimPrefix (s pre : string) : string :=
  if HasPrefix s pre
  then String.substring (String.length pre) (String.length s - String.length pre) s
  else s.

(** One of the two [if] blocks of the callback, for attribute [a]. *)
Definition visit_attr (a : string) (s : Node) (og : Snapshot) : Snapshot :=
  match Attr s a with
  | Some prop =>
      if HasPrefix prop "og:" then
        match Attr s "content" with
        | Some content => <[TrimPrefix prop "og:" := content]> og
        | None => og
        end
      else og
  | None => og
  end.

(** The callback passed to [Each]: property first, then name. *)
Definition visit (og : Snapshot) (s : Node) : Snapshot :=
  visit_attr "name" s (visit_attr "property" s og).

(** The insertions one [if] block makes, as a list of (key, content). *)
Definition attr_writes (a : string) (s : Node) : list (string * string) :=
  match Attr s a, Attr s "content" with
  | Some prop, Some content =>
      if HasPrefix prop "og:" then [(TrimPrefix prop "og:", content)] else []
  | _, _ => []
  end.

(** The insertions the callback makes for one element, in order. *)
Definition writes (s : Node) : list (string * string) :=
  attr_writes "property" s ++ attr_writes "name" s.

(** [m[k] = v] *)
Definition store {V} (m : gmap string V) (kv : string * V) : gmap string V :=
  <[kv.1 := kv.2]> m.

(** ** Required tags and printMissing *)

Definition essentialTags : list string :=
  ["title"; "type"; "image"; "url"; "description"].

Definition recommendedTags : list string :=
  essentialTags ++ ["site_name"; "locale"; "video"; "audio"; "article:author";
                    "article:publisher"; "article:section"; "article:tag"].

(** What the program writes to the terminal, one constructor per block. *)
Inductive Output :=
  | OutFetchError (url : string) (e : error)
  | OutTable (url : string) (og : Snapshot)
  | OutMissing (tags : list string)
  | OutAllPresent
  | OutJSON (aggregated : gmap string Snapshot)
  | OutDiff (ts : string) (diff : ChangeSet)
  | OutError (e : error)
  | OutWarning (w : string).

(** The loop [for _, k := range required] of [printMissing]. *)
Definition missing_of (og : Snapshot) (required : list string) : list string :=
  foldl (fun missing k =>
           if decide (get og k = "") then missing ++ ["og:" +:+ k] else missing)
        [] required.

Definition required_tags (essentialsOnly : bool) : list string :=
  if essentialsOnly then essentialTags else recommendedTags.

(** The block [printMissing] prints and the exit-code-style integer it
    returns. *)
Definition printMissing (og : Snapshot) (essentialsOnly : bool) : Output * Z :=
  let missing := missing_of og (required_tags essentialsOnly) in
  if decide (0 < length missing) then (OutMissing missing, 1%Z)
  else (OutAllPresent, 0%Z).

(** ** Inspect: the aggregation loop *)

(** The local [type result struct]. *)
Record result := { url : string; og : Snapshot; err : option error }.

(** The variables the loop [for r := range results] updates. *)
Record tally := {
  exitCode : Z;
  aggregated : gmap string Snapshot;
  printed : list Output }.

Definition tally0 : tally :=
  {| exitCode := 0; aggregated := ∅; printed := [] |}.

(** Body of [for r := range results]. *)
Definition collect (jsonOut : bool) (a : tally) (r : result) : tally :=
  match err r with
  | Some e =>
      {| exitCode := 1; aggregated := aggregated a;
         printed := printed a ++ [OutFetchError (url r) e] |}
  | None =>
      if jsonOut then
        {| exitCode := exitCode a;
           aggregated := <[url r := og r]> (aggregated a);
           printed := printed a |}
      else
        {| exitCode := exitCode a; aggregated := aggregated a;
           printed := printed a ++ [OutTable (url r) (og r);
                                    fst (printMissing (og r) false)] |}
  end.

(** The tail of [RunE] once the result channel is drained; [enc_err] is
    what [enc.Encode] returns when it writes the aggregate to stdout. *)
Definition inspect_finish (jsonOut : bool) (enc_err : option string) (a : tally)
  : list Output * option error :=
  if jsonOut then
    match enc_err with
    | Some msg => (printed a, Some (ErrEncode msg))
    | None =>
        (printed a ++ [OutJSON (aggregated a)],
         if decide (exitCode a ≠ 0%Z) then Some ErrInspection else None)
    end
  else (printed a, if decide (exitCode a ≠ 0%Z) then Some ErrInspection else None).

(** Aggregation of the results in the order the channel delivers them. *)
Definition inspect_collect (jsonOut : bool) (rs : list result) : tally :=
  foldl (collect jsonOut) tally0 rs.

Definition inspect_report (jsonOut : bool) (enc_err : option string) (rs : list result)
  : list Output * option error :=
  inspect_finish jsonOut enc_err (inspect_collect jsonOut rs).

(** ** Monitor: the render loop *)

(** The local [type event struct]. *)
Record event := { ts : string; ev_og : Snapshot }.

(** Body of [for ev := range diffChan]: what is printed (nothing when the
    diff is empty) and the new baseline. *)
Definition render (prev : Snapshot) (ev : event) : option Output * Snapshot :=
  let diff := diffMaps prev (ev_og ev) in
  (if decide (0 < size diff) then Some (OutDiff (ts ev) diff) else None,
   ev_og ev).

(** ** The host and the external libraries *)

(** How a call ends: it returns, it panics (the Go runtime then ends the
    process with status 2), or it blocks for ever. *)
Inductive outcome (A : Type) :=
  | Returns (a : A)
  | Panics
  | Hangs.
Arguments Returns {A} a.
Arguments Panics {A}.
Arguments Hangs {A}.

(** The answer to the HEAD request of [checkImage], which runs under a
    ten-second deadline: an error, or a reply with its Content-Length
    header (empty when the header is absent). *)
Inductive head_answer :=
  | HeadError (msg : string)
  | HeadReply (content_length : string).

(** The answer to [http.Get] and to the read of the body, which have no
    deadline: it may never come; otherwise an error, or a reply with what
    [io.ReadAll] returns on the body limited to 5 MiB (the data, or a read
    error). *)
Inductive get_answer :=
  | GetNever
  | GetError (msg : string)
  | GetReply (read : string + string).

(** What the program takes from its environment. *)
Class Host := {
  (** [runtime.NumCPU()]: the number of logical CPUs, at least one. *)
  NumCPU : Z;
  NumCPU_pos : (1 <= NumCPU)%Z;
  (** [goquery.NewDocumentFromReader(...).Find("meta")]: the meta elements
      of the parsed document, in document order. *)
  meta_elements : string → list Node;
  (** whether [http.NewRequestWithContext] can build a request for the URL *)
  request_builds : string → bool;
  (** the network's answer to HEAD and to GET on an image URL *)
  http_head : string → head_answer;
  http_get : string → get_answer;
  (** the value [strconv.ParseInt(cl, 10, 64)] returns, its error dropped *)
  ParseInt : string → Z;
  (** [image.DecodeConfig]: width and height, or an error *)
  DecodeConfig : string → (Z * Z) + string;
  (** [math.Abs(float64(w)/float64(h) - 1.91) > 0.1], in float64 arithmetic *)
  ratio_off : Z → Z → bool;
  (** the ratio formatted with [%.2f] *)
  ratio_text : Z → Z → string }.

Definition parseOG `{!Host} (html : string) : Snapshot :=
  foldl visit ∅ (meta_elements html).

(** [%d] *)
Definition decimal (n : Z) : string := NilZero.string_of_int (Z.to_int n).

(** [checkImage]: [None] is the nil error.  The error of
    [http.NewRequestWithContext] is dropped, so when no request can be
    built [http.DefaultClient.Do] is called on a nil request. *)
Definition checkImage `{!Host} (imgURL : string) : outcome (option string) :=
  if request_builds imgURL then
    match http_head imgURL with
    | HeadError msg => Returns (Some ("cannot HEAD og:image: " +:+ msg))
    | HeadReply cl =>
        if negb (String.eqb cl "") && (5 * 1024 * 1024 <? ParseInt cl)%Z then
          Returns (Some "og:image is larger than 5 MB")
        else
          match http_get imgURL with
          | GetNever => Hangs
          | GetError msg => Returns (Some msg)
          | GetReply (inr msg) => Returns (Some msg)
          | GetReply (inl data) =>
              match DecodeConfig data with
              | inr msg => Returns (Some ("cannot decode og:image: " +:+ msg))
              | inl (w, h) =>
                  if (w <? 1200)%Z || (h <? 630)%Z then
                    Returns (Some ("og:image resolution too small ("
                                   +:+ decimal w +:+ "x" +:+ decimal h +:+ ")"))
                  else if ratio_off w h then
                    Returns (Some ("og:image aspect ratio " +:+ ratio_text w h
                                   +:+ " deviates from 1.91:1"))
                  else Returns None
              end
          end
    end
  else Panics.

(** The [switch og["type"]] of [semanticValidate]. *)
Definition article_warnings (og : Snapshot) : list string :=
  if decide (get og "type" = "article") then
    (if decide (get og "article:author" = "") then ["article:author is missing"] else [])
    ++ (if decide (get og "article:section" = "") then ["article:section is missing"] else [])
  else [].

Definition semanticValidate `{!Host} (og : Snapshot) : outcome (list string) :=
  match og !! "image" with
  | Some imgURL =>
      if decide (imgURL ≠ "") then
        let warns :=
          if HasPrefix imgURL "https://" then [] else ["og:image should use HTTPS"] in
        match checkImage imgURL with
        | Returns (Some e) => Returns ((warns ++ [e]) ++ article_warnings og)
        | Returns None => Returns (warns ++ article_warnings og)
        | Panics => Panics
        | Hangs => Hangs
        end
      else Returns (article_warnings og)
  | None => Returns (article_warnings og)
  end.

(** [validate] after the OG tags are parsed and the warnings are known. *)
Definition validate_report (og : Snapshot) (essentialsOnly : bool)
    (warns : list string) : list Output * option error :=
  let '(out, code) := printMissing og essentialsOnly in
  ((OutWarning <$> warns) ++ [out],
   if decide (code ≠ 0%Z) then Some ErrMissingTags else None).

(** [RunE] of the validate command, on the answer [resp] to its request. *)
Definition validate `{!Host} (essentialsOnly semantic : bool) (resp : Response)
  : outcome (list Output * option error) :=
  match fetchHTML resp with
  | inr e => Returns ([], Some e)
  | inl html =>
      let og := parseOG html in
      if semantic then
        match semanticValidate og with
        | Returns warns => Returns (validate_report og essentialsOnly warns)
        | Panics => Panics
        | Hangs => Hangs
        end
      else Returns (validate_report og essentialsOnly [])
  end.

(** [main]: [os.Exit(1)] when the command returns an error. *)
Definition exit_status (e : option error) : Z :=
  match e with Some _ => 1%Z | None => 0%Z end.

(** The exit status of the process, if it ends: 2 after a panic. *)
Definition process_status {A} (o : outcome (A * option error)) : option Z :=
  match o with
  | Returns r => Some (exit_status r.2)
  | Panics => Some 2%Z
  | Hangs => None
  end.

(** ** Inspect: the worker pool *)

(** Where one worker goroutine stands. *)
Inductive worker :=
  | WReceiving               (** at [for u := range tasks] *)
  | WFetching (u : string)   (** inside [fetchHTML(ctx, u)] *)
  | WSending (r : result)    (** at [results <- r] *)
  | WReturned.               (** loop left, [wg.Done()] has run *)

Record pool := {
  feed : list string;        (** URLs the feeder goroutine has still to send *)
  tasks_closed : bool;
  workers : list worker;
  results_closed : bool;
  received : list result;    (** what [range results] has yielded so far *)
  pool_panic : bool }.

(** One scheduling choice.  Both channels are unbuffered, so a send and
    its receive are one step. *)
Inductive pool_event :=
  | PTask (i : nat)                    (** [tasks <- u] meets worker [i] *)
  | PCloseTasks                        (** [close(tasks)] *)
  | PFetched (i : nat) (resp : Response) (** worker [i]'s fetch returns *)
  | PResult (i : nat)                  (** [results <- r] meets the main loop *)
  | PReturn (i : nat)                  (** worker [i] finds [tasks] closed *)
  | PCloseResults.                     (** [wg.Wait()] returns, [close(results)] *)

Definition set_worker (s : pool) (i : nat) (w : worker) : pool :=
  {| feed := feed s; tasks_closed := tasks_closed s;
     workers := <[i := w]> (workers s);
     results_closed := results_closed s; received := received s;
     pool_panic := pool_panic s |}.

(** The value a worker sends for [u] once its fetch has returned. *)
Definition worker_result `{!Host} (u : string) (resp : Response) : result :=
  match fetchHTML resp with
  | inr e => {| url := u; og := ∅; err := Some e |}
  | inl html => {| url := u; og := parseOG html; err := None |}
  end.

Definition is_returned (w : worker) : bool :=
  match w with WReturned => true | _ => false end.

Definition pool_step `{!Host} (s : pool) (e : pool_event) : option pool :=
  if pool_panic s then None else
  match e with
  | PTask i =>
      match feed s, workers s !! i with
      | u :: rest, Some WReceiving =>
          Some {| feed := rest; tasks_closed := tasks_closed s;
                  workers := <[i := WFetching u]> (workers s);
                  results_closed := results_closed s; received := received s;
                  pool_panic := false |}
      | _, _ => None
      end
  | PCloseTasks =>
      match feed s with
      | [] =>
          if tasks_closed s then None
          else Some {| feed := []; tasks_closed := true; workers := workers s;
                       results_closed := results_closed s;
                       received := received s; pool_panic := false |}
      | _ :: _ => None
      end
  | PFetched i resp =>
      match workers s !! i with
      | Some (WFetching u) => Some (set_worker s i (WSending (worker_result u resp)))
      | _ => None
      end
  | PResult i =>
      match workers s !! i with
      | Some (WSending r) =>
          if results_closed s then
            (* send on closed channel *)
            Some {| feed := feed s; tasks_closed := tasks_closed s;
                    workers := workers s; results_closed := true;
                    received := received s; pool_panic := true |}
          else
            Some {| feed := feed s; tasks_closed := tasks_closed s;
                    workers := <[i := WReceiving]> (workers s);
                    results_closed := false;
                    received := received s ++ [r]; pool_panic := false |}
      | _ => None
      end
  | PReturn i =>
      match workers s !! i with
      | Some WReceiving =>
          if tasks_closed s then Some (set_worker s i WReturned) else None
      | _ => None
      end
  | PCloseResults =>
      if results_closed s then None
      else if forallb is_returned (workers s) then
        Some {| feed := feed s; tasks_closed := tasks_closed s;
                workers := workers s; results_closed := true;
                received := received s; pool_panic := false |}
      else None
  end.

Fixpoint pool_run `{!Host} (s : pool) (es : list pool_event) : option pool :=
  match es with
  | [] => Some s
  | e :: es' =>
      match pool_step s e with
      | Some s' => pool_run s' es'
      | None => None
      end
  end.

(** The two [if]s that settle the worker count. *)
Definition pool_size `{!Host} (workers : Z) (urls : list string) : Z :=
  let workers := if (workers <=? 0)%Z then NumCPU else workers in
  if (Z.of_nat (length urls) <? workers)%Z then Z.of_nat (length urls) else workers.

(** The pipeline right after the three [go] statements. *)
Definition pool_init `{!Host} (workers : Z) (urls : list string) : pool :=
  {| feed := urls; tasks_closed := false;
     workers := replicate (Z.to_nat (pool_size workers urls)) WReceiving;
     results_closed := false; received := []; pool_panic := false |}.

(** [RunE] of the inspect command on the URLs gathered from the arguments
    and standard input, for a given schedule [es]: nothing is returned
    before the result channel is closed. *)
Definition inspect `{!Host} (jsonOut : bool) (workers : Z) (enc_err : option string)
    (urls : list string) (es : list pool_event)
  : option (list Output * option error) :=
  match urls with
  | [] => Some ([], Some ErrNoURLs)
  | _ :: _ =>
      match pool_run (pool_init workers urls) es with
      | Some s =>
          if results_closed s && negb (pool_panic s)
          then Some (inspect_report jsonOut enc_err (received s))
          else None
      | None => None
      end
  end.

(** ** Monitor: the fetch/render pipeline *)

(** Where one per-tick fetch goroutine stands. *)
Inductive fetcher :=
  | FFetching                (** inside [fetchHTML(fetchCtx, url)] *)
  | FSending (ev : event)    (** at [diffChan <- event{...}] *)
  | FReturned.               (** returned, after an error or a delivery *)

Record monitor := {
  ctx_done : bool;           (** [ctx.Done()] is closed *)
  control_live : bool;       (** the select loop has not returned *)
  diffChan_closed : bool;
  fetchers : list fetcher;   (** one per tick, in dispatch order *)
  prev : Snapshot;           (** the render loop's baseline *)
  shown : list Output;       (** everything printed so far *)
  render_live : bool;        (** [RunE] is still in [range diffChan] *)
  mon_panic : bool }.

Inductive monitor_event :=
  | MCancel                             (** the command context is cancelled *)
  | MTick                               (** select takes [<-ticker.C] *)
  | MDone                               (** select takes [<-ctx.Done()] *)
  | MFetched (i : nat) (resp : Response) (now : string)
                                        (** fetch [i] returns *)
  | MDeliver (i : nat)                  (** fetch [i] performs its send *)
  | MRenderExit.                        (** [range diffChan] ends *)

(** The pipeline once the ticker runs and the control goroutine is
    started; [var prev map[string]string] is nil, which reads as the empty
    map. *)
Definition monitor_init : monitor :=
  {| ctx_done := false; control_live := true; diffChan_closed := false;
     fetchers := []; prev := ∅; shown := []; render_live := true;
     mon_panic := false |}.

(** An [int64] product, wrapped around. *)
Definition wrap64 (z : Z) : Z := ((z + 2 ^ 63) mod 2 ^ 64 - 2 ^ 63)%Z.

(** [time.Duration(n) * time.Second], in nanoseconds. *)
Definition seconds (n : Z) : Z := wrap64 (n * 1000000000).

(** The start of [RunE] of the monitor command: [time.NewTicker] panics on
    a duration that is not positive. *)
Definition monitor_start (interval : Z) : outcome monitor :=
  if (seconds interval <=? 0)%Z then Panics else Returns monitor_init.

Definition is_deliver (e : monitor_event) : bool :=
  match e with MDeliver _ => true | _ => false end.

Definition set_fetchers (s : monitor) (fs : list fetcher) : monitor :=
  {| ctx_done := ctx_done s; control_live := control_live s;
     diffChan_closed := diffChan_closed s; fetchers := fs; prev := prev s;
     shown := shown s; render_live := render_live s;
     mon_panic := mon_panic s |}.

Definition option_list {A} (o : option A) : list A :=
  match o with Some x => [x] | None => [] end.

(** Nothing runs once [RunE] has returned (the process exits) or a
    goroutine has panicked. *)
Definition monitor_step `{!Host} (s : monitor) (e : monitor_event) : option monitor :=
  if mon_panic s || negb (render_live s) then None else
  match e with
  | MCancel =>
      if ctx_done s then None
      else Some {| ctx_done := true; control_live := control_live s;
                   diffChan_closed := diffChan_closed s;
                   fetchers := fetchers s; prev := prev s; shown := shown s;
                   render_live := true; mon_panic := false |}
  | MTick =>
      if control_live s then Some (set_fetchers s (fetchers s ++ [FFetching]))
      else None
  | MDone =>
      if control_live s && ctx_done s then
        Some {| ctx_done := true; control_live := false;
                diffChan_closed := true;
                fetchers := fetchers s; prev := prev s; shown := shown s;
                render_live := true; mon_panic := false |}
      else None
  | MFetched i resp now =>
      match fetchers s !! i with
      | Some FFetching =>
          match fetchHTML resp with
          | inr e =>
              Some {| ctx_done := ctx_done s; control_live := control_live s;
                      diffChan_closed := diffChan_closed s;
                      fetchers := <[i := FReturned]> (fetchers s);
                      prev := prev s; shown := shown s ++ [OutError e];
                      render_live := true; mon_panic := false |}
          | inl html =>
              Some (set_fetchers s
                      (<[i := FSending {| ts := now; ev_og := parseOG html |}]>
                         (fetchers s)))
          end
      | _ => None
      end
  | MDeliver i =>
      match fetchers s !! i with
      | Some (FSending ev) =>
          if diffChan_closed s then
            (* send on closed channel *)
            Some {| ctx_done := ctx_done s; control_live := control_live s;
                    diffChan_closed := true; fetchers := fetchers s;
                    prev := prev s; shown := shown s;
                    render_live := true; mon_panic := true |}
          else
            let '(out, baseline) := render (prev s) ev in
            Some {| ctx_done := ctx_done s; control_live := control_live s;
                    diffChan_closed := false;
                    fetchers := <[i := FReturned]> (fetchers s);
                    prev := baseline; shown := shown s ++ option_list out;
                    render_live := true; mon_panic := false |}
      | _ => None
      end
  | MRenderExit =>
      if diffChan_closed s then
        Some {| ctx_done := ctx_done s; control_live := control_live s;
                diffChan_closed := true; fetchers := fetchers s;
                prev := prev s; shown := shown s;
                render_live := false; mon_panic := false |}
      else None
  end.

Fixpoint monitor_run `{!Host} (s : monitor) (es : list monitor_event) : option monitor :=
  match es with
  | [] => Some s
  | e :: es' =>
      match monitor_step s e with
      | Some s' => monitor_run s' es'
      | None => None
      end
  end.

(** The events of fetch goroutines that are blocked on their send. *)
Definition pending (s : monitor) : list event :=
  omap (fun f => match f with FSending ev => Some ev | _ => None end) (fetchers s).

(** ** Accounting for the worker pool *)

(** The URL a worker holds between taking it and handing its result over. *)
Definition worker_urls (w : worker) : list string :=
  match w with
  | WFetching u => [u]
  | WSending r => [url r]
  | WReceiving | WReturned => []
  end.

Definition in_flight (s : pool) : list string := workers s ≫= worker_urls.

(** Steps a worker has ahead of it before it returns, not counting new tasks. *)
Definition worker_steps (w : worker) : nat :=
  match w with
  | WFetching _ => 3
  | WSending _ => 2
  | WReceiving => 1
  | WReturned => 0
  end.

(** Number of steps between [s] and the closing of the result channel. *)
Definition steps_left (s : pool) : nat :=
  3 * length (feed s) + sum_list_with worker_steps (workers s)
  + (if tasks_closed s then 0 else 1) + (if results_closed s then 0 else 1).

(** What holds in every state of a run started on [urls]. *)
Record pool_inv (urls : list string) (s : pool) : Prop := {
  inv_no_panic : pool_panic s = false;
  inv_feed : tasks_closed s = true → feed s = [];
  inv_closed : results_closed s = true → Forall (eq WReturned) (workers s);
  inv_returned : WReturned ∈ workers s → tasks_closed s = true;
  inv_urls : (url <$> received s) ++ in_flight s ++ feed s ≡ₚ urls }.

(** ** A sample host and sample runs *)

Definition hello_page : string := "<meta property='og:title' content='Hello'>".
Definition bye_page : string := "<meta property='og:title' content='Bye'>".
Definition blank_page : string := "<meta property='og:title' content=''>".
Definition bad_image_page : string :=
  "<meta property='og:title' content=''><meta property='og:image' content=':'>".

(** A parser that knows the three sample pages. *)
Definition sample_meta (html : string) : list Node :=
  if String.eqb html hello_page then
    [ {| Attrs := [("property", "og:title"); ("content", "Hello")] |} ]
  else if String.eqb html bye_page then
    [ {| Attrs := [("property", "og:title"); ("content", "Bye")] |} ]
  else if String.eqb html blank_page then
    [ {| Attrs := [("property", "og:title"); ("content", "")] |} ]
  else if String.eqb html bad_image_page then
    [ {| Attrs := [("property", "og:title"); ("content", "")] |};
      {| Attrs := [("property", "og:image"); ("content", ":")] |} ]
  else [].

Definition sample_cpus : (1 <= 4)%Z := ltac:(done).

(** A host with four CPUs, offline: no request can be built for the URL
    ":" and every HEAD request fails. *)
Definition sample_host : Host :=
  {| NumCPU := 4; NumCPU_pos := sample_cpus;
     meta_elements := sample_meta;
     request_builds := fun u => negb (String.eqb u ":");
     http_head := fun _ => HeadError "no such host";
     http_get := fun _ => GetError "no such host";
     ParseInt := fun _ => 0%Z;
     DecodeConfig := fun _ => inr "unknown format";
     ratio_off := fun _ _ => false;
     ratio_text := fun _ _ => "" |}.

Definition ok_reply (html : string) : Response := Reply 200 "200 OK" (inl html).

(** Two workers: the fetch of "a" times out, the fetch of "b" succeeds and
    its result is received first. *)
Definition two_workers_run : list pool_event :=
  [PTask 0; PTask 1; PCloseTasks;
   PFetched 0 (NoResponse "timeout"); PFetched 1 (ok_reply hello_page);
   PResult 1; PResult 0; PReturn 0; PReturn 1; PCloseResults].

(** One worker, two tasks answered [r1] then [r2]. *)
Definition one_worker_run (r1 r2 : Response) : list pool_event :=
  [PTask 0; PFetched 0 r1; PResult 0; PTask 0; PFetched 0 r2; PResult 0;
   PCloseTasks; PReturn 0; PCloseResults].

Definition hello_result : result :=
  {| url := "a"; og := {["title" := "Hello"]}; err := None |}.
Definition bye_result : result :=
  {| url := "a"; og := {["title" := "Bye"]}; err := None |}.

Definition hello_event : event := {| ts := "t1"; ev_og := {["title" := "Hello"]} |}.

(** A monitor whose first fetch is waiting to hand over [hello_event]. *)
Definition hello_waiting : monitor := set_fetchers monitor_init [FSending hello_event].

(** The same monitor after the delivery, and after a second tick and a
    second fetch of the same page. *)
Definition hello_delivered : monitor :=
  {| ctx_done := false; control_live := true; diffChan_closed := false;
     fetchers := [FReturned]; prev := {["title" := "Hello"]};
     shown := [OutDiff "t1" {["title" := ("", "Hello")]}];
     render_live := true; mon_panic := false |}.

Definition hello_again : event := {| ts := "t2"; ev_og := {["title" := "Hello"]} |}.

Definition hello_waiting_again : monitor :=
  set_fetchers hello_delivered [FReturned; FSending hello_again].

Definition hello_delivered_again : monitor :=
  set_fetchers hello_delivered [FReturned; FReturned].

(** A monitor whose first fetch is still in flight. *)
Definition first_in_flight : monitor := set_fetchers monitor_init [FFetching].

Definition not_found : Response := Reply 404 "404 Not Found" (inl "").

(** ** printTable and printUnified *)

(** Go's [<=] on strings: byte-wise lexicographic order. *)
Definition string_le (s1 s2 : string) : Prop := String.leb s1 s2 = true.

#[global] Instance string_le_dec : RelDecision string_le.
Proof. intros s1 s2. unfold string_le. apply _. Defined.

(** [sort.Strings] *)
Definition sort_Strings (keys : list string) : list string :=
  merge_sort string_le keys.

(** The rows [printTable] prints, as (key, value), when [range og] yields
    the keys in the order [ks]. *)
Definition table_rows (og : Snapshot) (ks : list string) : list (string * string) :=
  (fun k => (k, get og k)) <$> sort_Strings ks.

Definition printTable (og : Snapshot) : list (string * string) :=
  table_rows og (range_keys og).

(** Body of the loop of [printUnified]: up to three [Printf] on the
    output so far. *)
Definition printUnified_step (out : list string) (kv : string * (string * string))
  : list string :=
  let out := out ++ ["@@ og:" +:+ kv.1 +:+ " @@"] in
  let out := if decide (kv.2.1 ≠ "") then out ++ ["- " +:+ kv.2.1] else out in
  if decide (kv.2.2 ≠ "") then out ++ ["+ " +:+ kv.2.2] else out.

(** [printUnified] when [range diff] yields the entries in the order [kvs]. *)
Definition printUnified_over (kvs : list (string * (string * string))) : list string :=
  foldl printUnified_step [] kvs.

Definition printUnified (diff : ChangeSet) : list string :=
  printUnified_over (map_to_list diff).

(** ** Inspect: gathering the URLs *)

(** What the command can fail with before or after the pool has run. *)
Inductive inspect_error :=
  | ScanError (msg : string)     (** [scanner.Err()] *)
  | RunError (e : error).

(** The loop [for scanner.Scan()] over the lines of one scanner. *)
Definition scan_lines (TrimSpace : string → string) (urls lines : list string)
  : list string :=
  foldl (fun urls text =>
           let line := TrimSpace text in
           if decide (line ≠ "") then urls ++ [line] else urls)
        urls lines.

(** The loop [for _, a := range args]; [stdin] holds, for each scanner
    opened on standard input in turn, the lines it yields and its
    [scanner.Err()]; a scanner opened after the last one finds nothing. *)
Fixpoint gather_urls (TrimSpace : string → string) (args : list string)
    (stdin : list (list string * option string)) (urls : list string)
  : string + list string :=
  match args with
  | [] => inr urls
  | a :: args' =>
      if String.eqb a "-" then
        let lines := match stdin with [] => [] | (l, _) :: _ => l end in
        let scan_err := match stdin with [] => None | (_, e) :: _ => e end in
        let urls := scan_lines TrimSpace urls lines in
        match scan_err with
        | Some msg => inl msg
        | None => gather_urls TrimSpace args' (tail stdin) urls
        end
      else gather_urls TrimSpace args' stdin (urls ++ [a])
  end.

(** [RunE] of the inspect command from its arguments. *)
Definition inspect_cmd `{!Host} (TrimSpace : string → string) (jsonOut : bool)
    (workers : Z) (enc_err : option string) (args : list string)
    (stdin : list (list string * option string)) (es : list pool_event)
  : option (list Output * option inspect_error) :=
  match gather_urls TrimSpace args stdin [] with
  | inl msg => Some ([], Some (ScanError msg))
  | inr urls =>
      match inspect jsonOut workers enc_err urls es with
      | Some (out, res) => Some (out, RunError <$> res)
      | None => None
      end
  end.

(** * Verification *)

(** ** Lemmas on diffMaps *)

Lemma elem_of_range_keys {V} (m : gmap string V) k :
  k ∈ range_keys m ↔ is_Some (m !! k).
Proof.
  unfold range_keys. rewrite list_elem_of_fmap. split.
  - intros [[k' v] [-> Hin]]. apply elem_of_map_to_list in Hin. by exists v.
  - intros [v Hv]. exists (k, v). split; [done|]. by apply elem_of_map_to_list.
Qed.

Lemma elem_of_add_keys ks : ∀ keys k,
  k ∈ add_keys keys ks ↔ k ∈ keys ∨ k ∈ ks.
Proof.
  induction ks as [|a ks IH]; intros keys k; simpl.
  - set_solver.
  - unfold add_keys in *. simpl. rewrite IH. set_solver.
Qed.

Lemma elem_of_unified_keys old new k :
  k ∈ unified_keys old new ↔ is_Some (old !! k) ∨ is_Some (new !! k).
Proof.
  unfold unified_keys. rewrite !elem_of_add_keys, !elem_of_range_keys.
  set_solver.
Qed.

Lemma unified_keys_dom old new : unified_keys old new = dom old ∪ dom new.
Proof.
  apply set_eq. intros k.
  rewrite elem_of_unified_keys, elem_of_union, !elem_of_dom. done.
Qed.

(** The loop result does not depend on the visiting order: it is fixed by
    the set of visited keys alone. *)
Lemma diff_over_lookup_gen old new ks : ∀ acc k,
  foldl (diff_step old new) acc ks !! k =
    if decide (k ∈ ks ∧ get old k ≠ get new k)
    then Some (get old k, get new k) else acc !! k.
Proof.
  induction ks as [|a ks IH]; intros acc k.
  - cbn [foldl]. rewrite decide_False; [done|].
    intros [H _]. by apply elem_of_nil in H.
  - cbn [foldl]. rewrite IH. unfold diff_step at 1.
    destruct (decide (k ∈ ks ∧ get old k ≠ get new k)) as [[Hin Hne]|Hn].
    + rewrite decide_True; [done|]. split; [by right|done].
    + destruct (decide (get old a = get new a)) as [Heq|Hne].
      * rewrite decide_False; [done|].
        intros [H Hd]. apply elem_of_cons in H as [->|H]; [done|].
        by apply Hn.
      * destruct (decide (k = a)) as [->|Hka].
        -- rewrite lookup_insert_eq. rewrite decide_True; [done|].
           split; [by left|done].
        -- rewrite lookup_insert_ne by done.
           rewrite decide_False; [done|].
           intros [H Hd]. apply elem_of_cons in H as [->|H]; [done|].
           by apply Hn.
Qed.

Lemma diff_over_lookup old new ks k :
  diff_over old new ks !! k =
    if decide (k ∈ ks ∧ get old k ≠ get new k)
    then Some (get old k, get new k) else None.
Proof. unfold diff_over. by rewrite diff_over_lookup_gen, lookup_empty. Qed.

Lemma diff_over_order old new ks ks' :
  ks ≡ₚ ks' → diff_over old new ks = diff_over old new ks'.
Proof.
  intros Hp. apply map_eq. intros k. rewrite !diff_over_lookup.
  destruct (decide (k ∈ ks ∧ _)) as [[H1 H2]|Hn].
  - rewrite decide_True; [done|]. split; [by rewrite <- Hp|done].
  - rewrite decide_False; [done|]. intros [H1 H2]. apply Hn.
    split; [by rewrite Hp|done].
Qed.

Lemma get_ne_in_keys old new k :
  get old k ≠ get new k → k ∈ unified_keys old new.
Proof.
  intros Hne. rewrite elem_of_unified_keys. unfold get in Hne.
  destruct (old !! k); [left; eauto|].
  destruct (new !! k); [right; eauto|]. done.
Qed.

Lemma diffMaps_lookup old new k :
  diffMaps old new !! k =
    if decide (get old k = get new k) then None
    else Some (get old k, get new k).
Proof.
  unfold diffMaps. rewrite diff_over_lookup.
  destruct (decide (get old k = get new k)) as [Heq|Hne].
  - rewrite decide_False; [done|]. by intros [_ ?].
  - rewrite decide_True; [done|]. split; [|done].
    apply elem_of_elements. by apply get_ne_in_keys.
Qed.

Lemma diffMaps_dom old new :
  dom (diffMaps old new)
  = filter (fun k => get old k ≠ get new k) (dom old ∪ dom new).
Proof.
  apply set_eq. intros k.
  rewrite elem_of_filter, elem_of_dom, diffMaps_lookup, <- unified_keys_dom.
  destruct (decide (get old k = get new k)) as [Heq|Hne].
  - split; [by intros [? ?]|]. by intros [? _].
  - split; [|eauto]. intros _. split; [done|]. by apply get_ne_in_keys.
Qed.

Lemma diffMaps_same og : diffMaps og og = ∅.
Proof.
  apply map_eq. intros k. rewrite diffMaps_lookup, lookup_empty.
  by rewrite decide_True.
Qed.

Lemma get_empty k : get ∅ k = "".
Proof. unfold get. by rewrite lookup_empty. Qed.

Lemma get_Some (m : Snapshot) k v : m !! k = Some v → get m k = v.
Proof. unfold get. by intros ->. Qed.

Lemma get_None (m : Snapshot) k : m !! k = None → get m k = "".
Proof. unfold get. by intros ->. Qed.

(** C2: the key set of [diffMaps old new] is exactly the set of keys of
    the union of both key sets whose values differ when an absent key is
    read as the empty string, and every such key maps to the pair
    (old value, new value); the order in which the key set is visited
    does not matter. *)
Theorem diffMaps_spec (old new : Snapshot) :
  dom (diffMaps old new)
  = filter (fun k => get old k ≠ get new k) (dom old ∪ dom new)
  ∧ (∀ k, diffMaps old new !! k
          = if decide (k ∈ dom old ∪ dom new ∧ get old k ≠ get new k)
            then Some (get old k, get new k) else None)
  ∧ (∀ ks, ks ≡ₚ elements (dom old ∪ dom new) →
           diff_over old new ks = diffMaps old new).
Proof.
  split; [apply diffMaps_dom|]. split.
  2:{ intros ks Hks. unfold diffMaps. rewrite unified_keys_dom.
      by apply diff_over_order. }
  intros k. rewrite diffMaps_lookup, <- unified_keys_dom.
  destruct (decide (get old k = get new k)) as [Heq|Hne].
  - rewrite decide_False; [done|]. by intros [_ ?].
  - rewrite decide_True; [done|]. split; [|done]. by apply get_ne_in_keys.
Qed.

(** C9: [diffMaps new old] has the same keys as [diffMaps old new], and
    each of its pairs is the pair of [diffMaps old new] with its two
    components swapped. *)
Theorem diffMaps_swap (A B : Snapshot) :
  dom (diffMaps B A) = dom (diffMaps A B)
  ∧ diffMaps B A = prod_swap <$> diffMaps A B.
Proof.
  assert (diffMaps B A = prod_swap <$> diffMaps A B) as Hsw.
  { apply map_eq. intros k. rewrite lookup_fmap, !diffMaps_lookup.
    destruct (decide (get A k = get B k)) as [Heq|Hne].
    - by rewrite decide_True.
    - by rewrite decide_False by congruence. }
  split; [|done]. rewrite Hsw. apply dom_fmap_L.
Qed.

(** C7 (amended): a key present in only one of the two snapshots with a
    non-empty value is in the ChangeSet, the missing side being the empty
    string; with an empty value it reads the same on both sides and is
    left out. *)
Theorem diffMaps_one_sided (old new : Snapshot) (k v : string) :
  (old !! k = Some v ∧ new !! k = None) ∨ (old !! k = None ∧ new !! k = Some v) →
  diffMaps old new !! k
  = (if decide (v = "") then None else Some (get old k, get new k))
  ∧ (get old k, get new k)
    = (if decide (new !! k = None) then (v, "") else ("", v)).
Proof.
  intros Hside. rewrite diffMaps_lookup.
  destruct Hside as [[Ho Hn]|[Ho Hn]].
  - rewrite (get_Some _ _ _ Ho), (get_None _ _ Hn).
    rewrite (decide_True (P := new !! k = None)) by done.
    split; [|done]. by destruct (decide (v = "")).
  - rewrite (get_None _ _ Ho), (get_Some _ _ _ Hn).
    rewrite (decide_False (P := new !! k = None)) by congruence.
    split; [|done].
    destruct (decide (v = "")) as [->|Hv]; [done|].
    rewrite decide_False; [done|congruence].
Qed.

(** ** parseOG *)

Lemma substring_whole (k : string) : String.substring 0 (String.length k) k = k.
Proof. induction k as [|a k IH]; simpl; [done|by rewrite IH]. Qed.
Lemma TrimPrefix_og (k : string) : TrimPrefix ("og:" +:+ k) "og:" = k.
Proof.
  unfold TrimPrefix, HasPrefix.
  change ("og:" +:+ k) with (String "o" (String "g" (String ":" k))).
  assert (String.prefix "" k = true) as Hp by (by destruct k).
  cbn. rewrite Hp. rewrite Nat.sub_0_r. apply substring_whole.
Qed.
Lemma HasPrefix_og (p : string) :
  HasPrefix p "og:" = true ↔ p = "og:" +:+ TrimPrefix p "og:".
Proof.
  split.
  - intros Hp. unfold HasPrefix in Hp.
    destruct p as [|a1 [|a2 [|a3 k]]]; cbn [String.prefix] in Hp;
      repeat match type of Hp with
             | context [ascii_dec ?x ?y] => destruct (ascii_dec x y) as [<-|?]
             end; try discriminate.
    change (String "o" (String "g" (String ":" k))) with ("og:" +:+ k).
    by rewrite (TrimPrefix_og k).
  - intros ->. unfold HasPrefix.
    generalize (TrimPrefix p "og:"). intros k.
    change ("og:" +:+ k) with (String "o" (String "g" (String ":" k))). cbn.
    by destruct k.
Qed.

Lemma visit_attr_store a s og :
  visit_attr a s og = foldl store og (attr_writes a s).
Proof.
  unfold visit_attr, attr_writes.
  destruct (Attr s a) as [prop|]; [|done].
  destruct (HasPrefix prop "og:") eqn:Hp;
    destruct (Attr s "content") as [content|]; done.
Qed.

Lemma visit_store og s : visit og s = foldl store og (writes s).
Proof. unfold visit, writes. by rewrite foldl_app, !visit_attr_store. Qed.

Lemma foldl_visit_store ss : ∀ og,
  foldl visit og ss = foldl store og (ss ≫= writes).
Proof.
  induction ss as [|s ss IH]; intros og; [done|].
  cbn [foldl]. rewrite IH, visit_store.
  change ((s :: ss) ≫= writes) with (writes s ++ (ss ≫= writes)).
  by rewrite foldl_app.
Qed.

Lemma store_absent {V} (kvs : list (string * V)) : ∀ (og : gmap string V) k,
  k ∉ kvs.*1 → foldl store og kvs !! k = og !! k.
Proof.
  induction kvs as [|[k' c'] kvs IH]; intros og k Hk; [done|].
  cbn [foldl]. rewrite fmap_cons, not_elem_of_cons in Hk.
  destruct Hk as [Hne Hk]. rewrite IH by done.
  unfold store. cbn. by rewrite lookup_insert_ne.
Qed.

Lemma store_agree {V} (kvs : list (string * V)) : ∀ (og : gmap string V) k c,
  (k, c) ∈ kvs → (∀ c', (k, c') ∈ kvs → c' = c) →
  foldl store og kvs !! k = Some c.
Proof.
  induction kvs as [|[k' c'] kvs IH]; intros og k c Hin Hall.
  - by apply elem_of_nil in Hin.
  - cbn [foldl].
    destruct (decide (k ∈ kvs.*1)) as [Hk|Hk].
    + apply list_elem_of_fmap in Hk as [[k1 c1] [Hk1 Hin1]]. cbn in Hk1. subst k1.
      assert (c1 = c) as -> by (apply Hall; by right).
      apply IH; [done|]. intros c2 H2. apply Hall. by right.
    + rewrite store_absent by done.
      apply elem_of_cons in Hin as [Heq|Hin].
      * injection Heq as -> ->. unfold store. cbn. apply lookup_insert_eq.
      * exfalso. apply Hk. apply list_elem_of_fmap. by exists (k, c).
Qed.

Lemma store_origin {V} (kvs : list (string * V)) : ∀ (og : gmap string V) k c,
  foldl store og kvs !! k = Some c → (k, c) ∈ kvs ∨ og !! k = Some c.
Proof.
  induction kvs as [|[k' c'] kvs IH]; intros og k c Hl; [by right|].
  cbn [foldl] in Hl. apply IH in Hl as [Hin|Hl]; [left; by right|].
  unfold store in Hl. cbn in Hl.
  destruct (decide (k' = k)) as [->|Hne].
  - rewrite lookup_insert_eq in Hl. injection Hl as ->. left. by left.
  - rewrite lookup_insert_ne in Hl by done. by right.
Qed.

Lemma elem_of_attr_writes a s k c :
  (k, c) ∈ attr_writes a s ↔
  ∃ p, Attr s a = Some p ∧ HasPrefix p "og:" = true
       ∧ Attr s "content" = Some c ∧ k = TrimPrefix p "og:".
Proof.
  unfold attr_writes. split.
  - destruct (Attr s a) as [p|]; [|by intros ?%elem_of_nil].
    destruct (Attr s "content") as [c0|]; [|by intros ?%elem_of_nil].
    destruct (HasPrefix p "og:") eqn:Hp; [|by intros ?%elem_of_nil].
    intros Hin%list_elem_of_singleton. injection Hin as -> ->. by exists p.
  - intros (p & -> & -> & -> & ->). by apply list_elem_of_singleton.
Qed.

Lemma elem_of_writes s k c :
  (k, c) ∈ writes s ↔
  ∃ a p, (a = "property" ∨ a = "name") ∧ Attr s a = Some p
         ∧ HasPrefix p "og:" = true ∧ Attr s "content" = Some c
         ∧ k = TrimPrefix p "og:".
Proof.
  unfold writes. rewrite elem_of_app, !elem_of_attr_writes. split.
  - intros [(p & ?)|(p & ?)]; [exists "property", p|exists "name", p]; naive_solver.
  - intros (a & p & [-> | ->] & ?); [left|right]; by exists p.
Qed.

Lemma writes_one_content s k c c' :
  (k, c) ∈ writes s → (k, c') ∈ writes s → c' = c.
Proof.
  rewrite !elem_of_writes.
  intros (_ & _ & _ & _ & _ & H1 & _) (_ & _ & _ & _ & _ & H2 & _). congruence.
Qed.

Lemma store_present {V} (kvs : list (string * V)) : ∀ (og : gmap string V) k,
  k ∈ kvs.*1 → is_Some (foldl store og kvs !! k).
Proof.
  induction kvs as [|[k' c'] kvs IH]; intros og k Hk.
  - by apply elem_of_nil in Hk.
  - cbn [foldl]. destruct (decide (k ∈ kvs.*1)) as [Hin|Hout]; [by apply IH|].
    rewrite store_absent by done.
    rewrite fmap_cons in Hk. apply elem_of_cons in Hk as [->|Hk]; [|done].
    unfold store. cbn. rewrite lookup_insert_eq. eauto.
Qed.

Lemma parseOG_store `{!Host} html :
  parseOG html = foldl store ∅ (meta_elements html ≫= writes).
Proof. unfold parseOG. apply foldl_visit_store. Qed.

Lemma not_elem_of_bind_writes (ss : list Node) k :
  (∀ s, s ∈ ss → k ∉ (writes s).*1) → k ∉ (ss ≫= writes).*1.
Proof.
  intros Hall Hin. apply list_elem_of_fmap in Hin as [[k1 c1] [Hk Hin]].
  cbn in Hk. subst k1. apply list_elem_of_bind in Hin as (s & Hin & Hs).
  apply (Hall s Hs). apply list_elem_of_fmap. by exists (k, c1).
Qed.

Lemma visit_skip (og : Snapshot) (s : Node) :
  Attr s "content" = None → visit og s = og.
Proof.
  intros Hc. unfold visit, visit_attr. rewrite Hc.
  destruct (Attr s "name") as [n|], (Attr s "property") as [p|];
    repeat match goal with |- context [HasPrefix ?x ?y] => destruct (HasPrefix x y) end;
    done.
Qed.

(** C8: for every HTML document, [parseOG] has an entry for every meta
    element whose property or name attribute starts with "og:" and that has
    a content attribute, under the key with the prefix stripped; an element
    without content is skipped and changes nothing; when a key occurs more
    than once the last occurrence in traversal order gives the value; and
    every entry comes from such an element. *)
Theorem parseOG_spec `{!Host} (html : string) :
  (∀ s a p c, s ∈ meta_elements html → a = "property" ∨ a = "name" →
     Attr s a = Some p → HasPrefix p "og:" = true → Attr s "content" = Some c →
     is_Some (parseOG html !! TrimPrefix p "og:"))
  ∧ (∀ k, TrimPrefix ("og:" +:+ k) "og:" = k)
  ∧ (∀ s og, Attr s "content" = None → visit og s = og)
  ∧ (∀ before s after a p c,
       meta_elements html = before ++ s :: after →
       a = "property" ∨ a = "name" →
       Attr s a = Some p → HasPrefix p "og:" = true → Attr s "content" = Some c →
       (∀ s', s' ∈ after → TrimPrefix p "og:" ∉ (writes s').*1) →
       parseOG html !! TrimPrefix p "og:" = Some c)
  ∧ (∀ k c, parseOG html !! k = Some c →
       ∃ s, s ∈ meta_elements html ∧ (k, c) ∈ writes s).
Proof.
  repeat split.
  - intros s a p c Hs Ha Hp Hog Hc. rewrite parseOG_store.
    apply store_present. apply list_elem_of_fmap.
    exists (TrimPrefix p "og:", c). split; [done|].
    apply list_elem_of_bind. exists s. split; [|done].
    apply elem_of_writes. by exists a, p.
  - apply TrimPrefix_og.
  - intros s og0 Hc. by apply visit_skip.
  - intros before s after a p c Hsplit Ha Hp Hog Hc Hlast.
    rewrite parseOG_store, Hsplit, bind_app, bind_cons, !foldl_app.
    rewrite store_absent by by apply not_elem_of_bind_writes.
    assert ((TrimPrefix p "og:", c) ∈ writes s) as Hin.
    { apply elem_of_writes. by exists a, p. }
    apply store_agree; [done|].
    intros c' Hin'. by apply (writes_one_content s (TrimPrefix p "og:")).
  - intros k c Hl. rewrite parseOG_store in Hl.
    apply store_origin in Hl as [Hin|Hl]; [|by rewrite lookup_empty in Hl].
    apply list_elem_of_bind in Hin as (s & Hin & Hs). by exists s.
Qed.

(** ** printMissing and validate *)

Lemma og_prefix_inj (k k' : string) : "og:" +:+ k = "og:" +:+ k' → k = k'.
Proof.
  change ("og:" +:+ k) with (String "o" (String "g" (String ":" k))).
  change ("og:" +:+ k') with (String "o" (String "g" (String ":" k'))).
  congruence.
Qed.

Lemma missing_of_acc og required : ∀ acc,
  foldl (fun missing k =>
           if decide (get og k = "") then missing ++ ["og:" +:+ k] else missing)
        acc required
  = acc ++ ((fun k => "og:" +:+ k) <$> filter (fun k => get og k = "") required).
Proof.
  induction required as [|k required IH]; intros acc.
  - by rewrite app_nil_r.
  - cbn [foldl]. rewrite IH, filter_cons.
    destruct (decide (get og k = "")); [|done].
    by rewrite fmap_cons, <- app_assoc.
Qed.

Lemma missing_of_filter og required :
  missing_of og required
  = (fun k => "og:" +:+ k) <$> filter (fun k => get og k = "") required.
Proof. unfold missing_of. by rewrite missing_of_acc. Qed.

Lemma elem_of_missing_of og required k :
  "og:" +:+ k ∈ missing_of og required ↔ k ∈ required ∧ get og k = "".
Proof.
  rewrite missing_of_filter, list_elem_of_fmap. split.
  - intros (k' & Heq & Hin). apply og_prefix_inj in Heq. subst k'.
    apply list_elem_of_filter in Hin. tauto.
  - intros [Hin Hget]. exists k. split; [done|].
    apply list_elem_of_filter. tauto.
Qed.

Lemma missing_of_nil og required :
  missing_of og required = [] ↔ ∀ k, k ∈ required → get og k ≠ "".
Proof.
  rewrite missing_of_filter. split.
  - intros Hnil k Hin Hget.
    assert ("og:" +:+ k ∈ missing_of og required) as Hm
      by (by apply elem_of_missing_of).
    rewrite missing_of_filter, Hnil in Hm. by apply elem_of_nil in Hm.
  - intros Hall. destruct (filter _ required) as [|k l] eqn:Hf; [done|].
    assert (k ∈ filter (fun k => get og k = "") required) as Hin
      by (rewrite Hf; by left).
    apply list_elem_of_filter in Hin as [Hget Hin]. by destruct (Hall k Hin).
Qed.

Lemma printMissing_code og essentialsOnly :
  printMissing og essentialsOnly
  = match missing_of og (required_tags essentialsOnly) with
    | [] => (OutAllPresent, 0%Z)
    | missing => (OutMissing missing, 1%Z)
    end.
Proof.
  unfold printMissing.
  destruct (missing_of og (required_tags essentialsOnly)) as [|m ms]; [done|].
  rewrite decide_True; [done|]. cbn. lia.
Qed.

Lemma printMissing_fails og essentialsOnly :
  (printMissing og essentialsOnly).2 = 1%Z
  ↔ ∃ k, k ∈ required_tags essentialsOnly ∧ get og k = "".
Proof.
  rewrite printMissing_code.
  destruct (missing_of og (required_tags essentialsOnly)) as [|m ms] eqn:Hm.
  - split; [done|]. intros (k & Hin & Hget).
    by destruct (proj1 (missing_of_nil _ _) Hm k Hin).
  - split; [|done]. intros _.
    assert (m ∈ missing_of og (required_tags essentialsOnly)) as Hin
      by (rewrite Hm; by left).
    rewrite missing_of_filter in Hin.
    apply list_elem_of_fmap in Hin as (k & _ & Hin).
    apply list_elem_of_filter in Hin as [Hget Hin]. by exists k.
Qed.

Lemma printMissing_codes og essentialsOnly :
  (printMissing og essentialsOnly).2 = 0%Z
  ∨ (printMissing og essentialsOnly).2 = 1%Z.
Proof.
  rewrite printMissing_code.
  destruct (missing_of og (required_tags essentialsOnly)); [by left|by right].
Qed.

Lemma validate_report_result (og : Snapshot) (essentialsOnly : bool)
    (warns : list string) :
  validate_report og essentialsOnly warns
  = ((OutWarning <$> warns) ++ [(printMissing og essentialsOnly).1],
     if decide ((printMissing og essentialsOnly).2 = 1%Z)
     then Some ErrMissingTags else None).
Proof.
  unfold validate_report.
  destruct (printMissing_codes og essentialsOnly) as [H0|H1];
    destruct (printMissing og essentialsOnly) as [out code];
    cbn in *; subst code; done.
Qed.

Lemma checkImage_panics `{!Host} (u : string) :
  checkImage u = Panics ↔ request_builds u = false.
Proof.
  unfold checkImage. destruct (request_builds u); [|done].
  split; [|done]. repeat case_match; done.
Qed.

Lemma semanticValidate_panics `{!Host} (og : Snapshot) :
  semanticValidate og = Panics
  ↔ ∃ u, og !! "image" = Some u ∧ u ≠ "" ∧ request_builds u = false.
Proof.
  unfold semanticValidate. destruct (og !! "image") as [u|].
  - destruct (decide (u ≠ "")) as [Hu|Hu].
    + pose proof (checkImage_panics u) as Hp.
      destruct (checkImage u) as [[e|]| |]; split; try done.
      * intros (u' & [= <-] & _ & Hb). by apply Hp in Hb.
      * intros (u' & [= <-] & _ & Hb). by apply Hp in Hb.
      * intros _. exists u. split; [done|]. split; [done|]. by apply Hp.
      * intros (u' & [= <-] & _ & Hb). by apply Hp in Hb.
    + split; [done|]. by intros (u' & [= <-] & ? & _).
  - split; [done|]. by intros (u' & ? & _).
Qed.

Lemma validate_returns `{!Host} essentialsOnly semantic resp html r :
  fetchHTML resp = inl html →
  validate essentialsOnly semantic resp = Returns r →
  ∃ warns, r = validate_report (parseOG html) essentialsOnly warns
    ∧ (semantic = false → warns = [])
    ∧ (semantic = true → semanticValidate (parseOG html) = Returns warns).
Proof.
  intros Hf Hv. unfold validate in Hv. rewrite Hf in Hv.
  destruct semantic.
  - destruct (semanticValidate (parseOG html)) as [warns| |]; try done.
    injection Hv as <-. by exists warns.
  - injection Hv as <-. by exists [].
Qed.

(** C10 (what the code does): a required tag is listed as missing exactly
    when its value in the snapshot reads as the empty string, present and
    empty like absent, and [printMissing] returns 1 exactly then; validate
    returns the missing-tags error, exit status 1, whenever it returns, and
    without the semantic flag it always returns.  With the semantic flag
    and an og:image value for which no request can be built, [checkImage]
    passes a nil request to the client: validate panics before
    [printMissing] runs, no missing tag is reported and the process ends
    with status 2; so it is for the page whose og:title is empty and whose
    og:image is ":". *)
Theorem validate_empty_tag_outcome `{!Host} (og : Snapshot) (essentialsOnly : bool) :
  (∀ required k,
     "og:" +:+ k ∈ missing_of og required ↔ k ∈ required ∧ get og k = "")
  ∧ (∀ required k, k ∈ required → og !! k = Some "" ∨ og !! k = None →
       "og:" +:+ k ∈ missing_of og required)
  ∧ ((printMissing og essentialsOnly).2 = 1%Z
     ↔ ∃ k, k ∈ required_tags essentialsOnly ∧ get og k = "")
  ∧ ((printMissing og essentialsOnly).2 = 0%Z
     ↔ ∀ k, k ∈ required_tags essentialsOnly → get og k ≠ "")
  ∧ ((printMissing og essentialsOnly).2 = 1%Z →
     (printMissing og essentialsOnly).1
     = OutMissing (missing_of og (required_tags essentialsOnly)))
  ∧ (∀ semantic resp html k,
       fetchHTML resp = inl html → parseOG html = og →
       k ∈ required_tags essentialsOnly → og !! k = Some "" ∨ og !! k = None →
       (∀ r, validate essentialsOnly semantic resp = Returns r →
             r.2 = Some ErrMissingTags ∧ exit_status r.2 = 1%Z
             ∧ OutMissing (missing_of og (required_tags essentialsOnly)) ∈ r.1)
       ∧ (∃ r, validate essentialsOnly false resp = Returns r)
       ∧ (∀ u, og !! "image" = Some u → u ≠ "" → request_builds u = false →
               validate essentialsOnly true resp = Panics
               ∧ process_status (validate essentialsOnly true resp) = Some 2%Z))
  ∧ parseOG (H := sample_host) bad_image_page
    = {["title" := ""; "image" := ":"]}
  ∧ validate (H := sample_host) essentialsOnly true (ok_reply bad_image_page)
    = Panics.
Proof.
  split; [|split; [|split; [|split; [|split; [|split; [|split]]]]]].
  - intros required k. apply elem_of_missing_of.
  - intros required k Hin Hk. apply elem_of_missing_of. split; [done|].
    destruct Hk as [Hk|Hk]; [by apply get_Some|by apply get_None].
  - apply printMissing_fails.
  - rewrite <- missing_of_nil, printMissing_code.
    by destruct (missing_of og (required_tags essentialsOnly)).
  - rewrite printMissing_code.
    by destruct (missing_of og (required_tags essentialsOnly)).
  - intros semantic resp html k Hf Hog Hin Hk.
    assert ((printMissing og essentialsOnly).2 = 1%Z) as Hcode.
    { apply printMissing_fails. exists k. split; [done|].
      destruct Hk as [Hk|Hk]; [by apply get_Some|by apply get_None]. }
    split; [|split].
    + intros r Hr.
      destruct (validate_returns _ _ _ _ _ Hf Hr) as (warns & -> & _).
      rewrite Hog, validate_report_result. cbn.
      rewrite decide_True by done. split; [done|]. split; [done|].
      rewrite elem_of_app. right. apply list_elem_of_singleton.
      rewrite printMissing_code in Hcode |- *.
      by destruct (missing_of og (required_tags essentialsOnly)).
    + unfold validate. rewrite Hf. eauto.
    + intros u Hu Hne Hreq.
      assert (validate essentialsOnly true resp = Panics) as ->; [|done].
      unfold validate. rewrite Hf, Hog.
      assert (semanticValidate og = Panics) as ->; [|done].
      apply semanticValidate_panics. by exists u.
  - vm_compute. reflexivity.
  - by destruct essentialsOnly.
Qed.

(** ** Inspect: aggregation *)

Lemma collect_exitCode jsonOut rs : ∀ a,
  exitCode (foldl (collect jsonOut) a rs)
  = if decide (Exists (fun r => is_Some (err r)) rs) then 1%Z else exitCode a.
Proof.
  induction rs as [|r rs IH]; intros a.
  - cbn. rewrite decide_False; [done|]. by intros ?%Exists_nil.
  - cbn [foldl]. rewrite IH.
    destruct (decide (Exists (fun r => is_Some (err r)) rs)) as [He|Hn].
    + rewrite decide_True; [done|]. by right.
    + unfold collect. destruct (err r) as [e|] eqn:Hr.
      * rewrite decide_True; [done|]. left. rewrite Hr. eauto.
      * rewrite decide_False.
        { by destruct jsonOut. }
        intros [Hhd|Htl]%Exists_cons; [|done].
        rewrite Hr in Hhd. by destruct Hhd.
Qed.

Lemma collect_table_printed rs : ∀ a,
  printed (foldl (collect false) a rs)
  = printed a ++ (rs ≫= fun r =>
      match err r with
      | Some e => [OutFetchError (url r) e]
      | None => [OutTable (url r) (og r); (printMissing (og r) false).1]
      end).
Proof.
  induction rs as [|r rs IH]; intros a.
  - cbn. by rewrite app_nil_r.
  - cbn [foldl]. rewrite IH, bind_cons, app_assoc. f_equal.
    unfold collect. by destruct (err r).
Qed.

Lemma collect_json_printed rs : ∀ a,
  printed (foldl (collect true) a rs)
  = printed a ++ (rs ≫= fun r =>
      match err r with
      | Some e => [OutFetchError (url r) e]
      | None => []
      end).
Proof.
  induction rs as [|r rs IH]; intros a.
  - cbn. by rewrite app_nil_r.
  - cbn [foldl]. rewrite IH, bind_cons, app_assoc. f_equal.
    unfold collect. destruct (err r); [done|]. cbn. by rewrite app_nil_r.
Qed.

(** The stores of the JSON branch, in arrival order. *)
Lemma collect_json_aggregated rs : ∀ a,
  aggregated (foldl (collect true) a rs)
  = foldl store (aggregated a)
      (omap (fun r => match err r with
                      | None => Some (url r, og r)
                      | Some _ => None
                      end) rs).
Proof.
  induction rs as [|r rs IH]; intros a; [done|].
  cbn [foldl]. rewrite IH. cbn [omap list_omap].
  unfold collect. by destruct (err r).
Qed.

Lemma collect_table_aggregated rs : ∀ a,
  aggregated (foldl (collect false) a rs) = aggregated a.
Proof.
  induction rs as [|r rs IH]; intros a; [done|].
  cbn [foldl]. rewrite IH. unfold collect. by destruct (err r).
Qed.

Lemma elem_of_json_stores (rs : list result) u o :
  (u, o) ∈ omap (fun r => match err r with
                          | None => Some (url r, og r)
                          | Some _ => None
                          end) rs
  ↔ ∃ r, r ∈ rs ∧ err r = None ∧ url r = u ∧ og r = o.
Proof.
  rewrite list_elem_of_omap. split.
  - intros (r & Hin & Hr). exists r. destruct (err r); [done|].
    injection Hr as <- <-. done.
  - intros (r & Hin & He & <- & <-). exists r. by rewrite He.
Qed.

(** ** Inspect: the worker pool *)

Lemma list_insert_split {A} (l : list A) i x :
  l !! i = Some x →
  ∃ l1 l2, l = l1 ++ x :: l2 ∧ ∀ y, <[i:=y]> l = l1 ++ y :: l2.
Proof.
  revert i. induction l as [|a l IH]; intros [|i] Hl; try done.
  - injection Hl as ->. by exists [], l.
  - destruct (IH i Hl) as (l1 & l2 & -> & Hins).
    exists (a :: l1), l2. split; [done|]. intros y. cbn. by rewrite Hins.
Qed.

Lemma forallb_is_returned (l : list worker) :
  forallb is_returned l = true ↔ Forall (eq WReturned) l.
Proof.
  induction l as [|w l IH]; cbn; [done|].
  rewrite andb_true_iff, Forall_cons, IH. destruct w; naive_solver.
Qed.

Lemma pool_size_bounds `{!Host} (workers : Z) (urls : list string) :
  urls ≠ [] →
  (1 <= pool_size workers urls <= Z.of_nat (length urls))%Z.
Proof.
  intros Hne. unfold pool_size. pose proof NumCPU_pos as Hcpu.
  assert (1 <= Z.of_nat (length urls))%Z by (destruct urls; [done|cbn; lia]).
  destruct (Z.leb_spec workers 0);
    [destruct (Z.ltb_spec (Z.of_nat (length urls)) NumCPU)
    |destruct (Z.ltb_spec (Z.of_nat (length urls)) workers)]; lia.
Qed.

Lemma pool_init_inv `{!Host} workers urls : pool_inv urls (pool_init workers urls).
Proof.
  split; cbn; try done.
  - intros Hin. apply elem_of_replicate in Hin as [? _]. done.
  - unfold in_flight. cbn.
    assert (∀ n, replicate n WReceiving ≫= worker_urls = []) as ->; [|done].
    induction n as [|n IH]; [done|]. cbn. by rewrite IH.
Qed.

(** A worker that has not returned keeps the result channel open. *)
Ltac still_open Hc Hl :=
  let Hrc := fresh "Hrc" in
  intros Hrc; specialize (Hc Hrc); rewrite Hl in Hc;
  apply Forall_app in Hc as [_ Hc]; by apply Forall_cons in Hc as [? _].

(** Replacing a worker that has not returned by another adds no returned
    worker. *)
Ltac same_returned Hr Hl Hins :=
  let Hin := fresh "Hin" in
  rewrite Hins; rewrite Hl in Hr; intros Hin; apply Hr;
  rewrite elem_of_app, elem_of_cons in Hin |- *;
  destruct Hin as [?|[?|?]]; [by left|done|right; by right].

Lemma pool_step_inv `{!Host} urls s e s' :
  pool_inv urls s → pool_step s e = Some s' → pool_inv urls s'.
Proof.
  intros [Hp Hf Hc Hr Hu] Hstep. unfold pool_step in Hstep. rewrite Hp in Hstep.
  unfold in_flight in Hu.
  destruct e as [i| |i resp|i|i|].
  - (* PTask *)
    destruct (feed s) as [|u rest] eqn:Hfeed; [done|].
    destruct (workers s !! i) as [[]|] eqn:Hw; try done.
    injection Hstep as <-.
    destruct (list_insert_split _ _ _ Hw) as (l1 & l2 & Hl & Hins).
    split; cbn; try done.
    + intros Ht. by specialize (Hf Ht).
    + still_open Hc Hl.
    + same_returned Hr Hl Hins.
    + unfold in_flight. cbn. rewrite Hins. rewrite Hl in Hu.
      rewrite bind_app, bind_cons in Hu |- *. cbn in Hu |- *.
      rewrite <- Hu. by solve_Permutation.
  - (* PCloseTasks *)
    destruct (feed s) eqn:Hfeed; [|done].
    destruct (tasks_closed s) eqn:Ht; [done|]. injection Hstep as <-.
    split; cbn; done.
  - (* PFetched *)
    destruct (workers s !! i) as [[]|] eqn:Hw; try done.
    injection Hstep as <-.
    destruct (list_insert_split _ _ _ Hw) as (l1 & l2 & Hl & Hins).
    split; cbn; try done.
    + still_open Hc Hl.
    + same_returned Hr Hl Hins.
    + unfold in_flight. cbn. rewrite Hins. rewrite Hl in Hu.
      rewrite bind_app, bind_cons in Hu |- *. cbn in Hu |- *.
      assert (url (worker_result u resp) = u) as ->; [|done].
      unfold worker_result. by destruct (fetchHTML resp).
  - (* PResult *)
    destruct (workers s !! i) as [[]|] eqn:Hw; try done.
    destruct (list_insert_split _ _ _ Hw) as (l1 & l2 & Hl & Hins).
    destruct (results_closed s) eqn:Hrc.
    { specialize (Hc eq_refl). rewrite Hl in Hc.
      apply Forall_app in Hc as [_ Hc]. by apply Forall_cons in Hc as [? _]. }
    injection Hstep as <-. split; cbn; try done.
    + same_returned Hr Hl Hins.
    + unfold in_flight. cbn. rewrite Hins. rewrite Hl in Hu.
      rewrite bind_app, bind_cons in Hu |- *. cbn in Hu |- *.
      rewrite fmap_app. cbn. rewrite <- Hu. by solve_Permutation.
  - (* PReturn *)
    destruct (workers s !! i) as [[]|] eqn:Hw; try done.
    destruct (tasks_closed s) eqn:Ht; [|done]. injection Hstep as <-.
    destruct (list_insert_split _ _ _ Hw) as (l1 & l2 & Hl & Hins).
    split; cbn.
    + done.
    + intros _. by apply Hf.
    + still_open Hc Hl.
    + done.
    + unfold in_flight. cbn. rewrite Hins. rewrite Hl in Hu.
      by rewrite bind_app, bind_cons in Hu |- *.
  - (* PCloseResults *)
    destruct (results_closed s) eqn:Hrc; [done|].
    destruct (forallb is_returned (workers s)) eqn:Hall; [|done].
    injection Hstep as <-. split; cbn; try done.
    intros _. by apply forallb_is_returned.
Qed.

Lemma pool_step_steps `{!Host} urls s e s' :
  pool_inv urls s → pool_step s e = Some s' →
  steps_left s = S (steps_left s') ∧ length (workers s') = length (workers s).
Proof.
  intros [Hp Hf Hc Hr Hu] Hstep. unfold pool_step in Hstep. rewrite Hp in Hstep.
  unfold steps_left.
  destruct e as [i| |i resp|i|i|].
  - destruct (feed s) as [|u rest] eqn:Hfeed; [done|].
    destruct (workers s !! i) as [[]|] eqn:Hw; try done.
    injection Hstep as <-. cbn.
    destruct (list_insert_split _ _ _ Hw) as (l1 & l2 & Hl & Hins).
    rewrite Hins, Hl, !sum_list_with_app, !length_app. cbn. lia.
  - destruct (feed s) eqn:Hfeed; [|done].
    destruct (tasks_closed s) eqn:Ht; [done|]. injection Hstep as <-.
    cbn. lia.
  - destruct (workers s !! i) as [[]|] eqn:Hw; try done.
    injection Hstep as <-. cbn.
    destruct (list_insert_split _ _ _ Hw) as (l1 & l2 & Hl & Hins).
    rewrite Hins, Hl, !sum_list_with_app, !length_app. cbn. lia.
  - destruct (workers s !! i) as [[]|] eqn:Hw; try done.
    destruct (list_insert_split _ _ _ Hw) as (l1 & l2 & Hl & Hins).
    destruct (results_closed s) eqn:Hrc.
    { specialize (Hc eq_refl). rewrite Hl in Hc.
      apply Forall_app in Hc as [_ Hc]. by apply Forall_cons in Hc as [? _]. }
    injection Hstep as <-. cbn.
    rewrite Hins, Hl, !sum_list_with_app, !length_app. cbn. lia.
  - destruct (workers s !! i) as [[]|] eqn:Hw; try done.
    destruct (tasks_closed s) eqn:Ht; [|done]. injection Hstep as <-. cbn.
    destruct (list_insert_split _ _ _ Hw) as (l1 & l2 & Hl & Hins).
    rewrite Ht, Hins, Hl, !sum_list_with_app, !length_app. cbn. lia.
  - destruct (results_closed s) eqn:Hrc; [done|].
    destruct (forallb is_returned (workers s)) eqn:Hall; [|done].
    injection Hstep as <-. cbn. lia.
Qed.

Lemma workers_cases (l : list worker) :
  forallb is_returned l = true ∨ ∃ i w, l !! i = Some w ∧ w ≠ WReturned.
Proof.
  induction l as [|w l IH]; [by left|].
  destruct w; try (right; by eexists 0, _).
  destruct IH as [Hall|(i & w & Hl & Hw)]; [by left|].
  right. by exists (S i), w.
Qed.

(** A pool whose result channel is open can always take a step. *)
Lemma pool_progress `{!Host} s :
  pool_panic s = false → results_closed s = false →
  ∃ e s', pool_step s e = Some s'.
Proof.
  intros Hp Hrc. unfold pool_step. rewrite Hp.
  destruct (workers_cases (workers s)) as [Hall|(i & w & Hl & Hw)].
  - exists PCloseResults. rewrite Hrc, Hall. eauto.
  - destruct w as [|u|r|]; [| | |done].
    + destruct (tasks_closed s) eqn:Ht.
      * exists (PReturn i). rewrite Hl. eauto.
      * destruct (feed s) as [|u rest] eqn:Hfeed.
        -- exists PCloseTasks. eauto.
        -- exists (PTask i). rewrite Hl. eauto.
    + exists (PFetched i (NoResponse "")). rewrite Hl. eauto.
    + exists (PResult i). rewrite Hl, Hrc. eauto.
Qed.

Lemma returned_in_flight (l : list worker) :
  Forall (eq WReturned) l →
  l ≫= worker_urls = [] ∧ sum_list_with worker_steps l = 0.
Proof.
  induction 1 as [|w l <- _ [IH1 IH2]]; [done|]. cbn. by rewrite IH1, IH2.
Qed.

(** Once the result channel is closed, every URL has been answered. *)
Lemma pool_closed_complete urls s :
  pool_inv urls s → results_closed s = true → workers s ≠ [] →
  url <$> received s ≡ₚ urls ∧ steps_left s = 0.
Proof.
  intros [Hp Hf Hc Hr Hu] Hrc Hne. specialize (Hc Hrc).
  assert (tasks_closed s = true) as Ht.
  { apply Hr. destruct (workers s) as [|w l]; [done|].
    apply Forall_cons in Hc as [<- _]. by left. }
  destruct (returned_in_flight _ Hc) as [Hfl Hsum].
  unfold in_flight in Hu. rewrite Hfl, (Hf Ht), app_nil_r in Hu.
  split; [done|]. unfold steps_left. rewrite (Hf Ht), Hsum, Ht, Hrc. done.
Qed.

Lemma pool_run_inv `{!Host} urls es : ∀ s s',
  pool_inv urls s → pool_run s es = Some s' →
  pool_inv urls s' ∧ steps_left s = length es + steps_left s'
  ∧ length (workers s') = length (workers s).
Proof.
  induction es as [|e es IH]; intros s s' Hinv Hrun.
  - injection Hrun as <-. done.
  - cbn in Hrun. destruct (pool_step s e) as [s1|] eqn:Hstep; [|done].
    destruct (pool_step_steps _ _ _ _ Hinv Hstep) as [Hm Hlen].
    destruct (IH s1 s' (pool_step_inv _ _ _ _ Hinv Hstep) Hrun) as (Hi & Hm' & Hl').
    split; [done|]. cbn [length]. split; [lia|congruence].
Qed.

(** Every state of a run can be driven on until the result channel closes. *)
Lemma pool_completes `{!Host} urls s :
  pool_inv urls s → ∃ es s', pool_run s es = Some s' ∧ results_closed s' = true.
Proof.
  remember (steps_left s) as n eqn:Hn. revert s Hn.
  induction n as [n IH] using lt_wf_ind. intros s Hn Hinv.
  destruct (results_closed s) eqn:Hrc.
  - by exists [], s.
  - destruct (pool_progress s (inv_no_panic _ _ Hinv) Hrc) as (e & s1 & Hstep).
    destruct (pool_step_steps _ _ _ _ Hinv Hstep) as [Hm _].
    destruct (IH (steps_left s1) ltac:(lia) s1 eq_refl
                (pool_step_inv _ _ _ _ Hinv Hstep)) as (es & s' & Hrun & Hcl).
    exists (e :: es), s'. cbn. by rewrite Hstep.
Qed.

Lemma pool_init_steps `{!Host} workers urls :
  steps_left (pool_init workers urls)
  = 3 * length urls + Z.to_nat (pool_size workers urls) + 2.
Proof.
  unfold steps_left. cbn -[Nat.mul].
  assert (∀ n, sum_list_with worker_steps (replicate n WReceiving) = n) as ->;
    [|lia].
  induction n as [|n IH]; [done|]. cbn. by rewrite IH.
Qed.

(** A failed fetch touches one worker only; that worker hands over a
    failure result for its URL and goes back to waiting for a task. *)
Lemma pool_failure_isolated `{!Host} urls s i resp e s1 :
  pool_inv urls s → fetchHTML resp = inr e →
  pool_step s (PFetched i resp) = Some s1 →
  feed s1 = feed s ∧ received s1 = received s
  ∧ tasks_closed s1 = tasks_closed s ∧ results_closed s1 = false
  ∧ pool_panic s1 = false
  ∧ (∀ j, j ≠ i → workers s1 !! j = workers s !! j)
  ∧ ∃ u s2, workers s !! i = Some (WFetching u)
      ∧ pool_step s1 (PResult i) = Some s2
      ∧ received s2 = received s ++ [{| url := u; og := ∅; err := Some e |}]
      ∧ workers s2 !! i = Some WReceiving
      ∧ (∀ j, j ≠ i → workers s2 !! j = workers s !! j).
Proof.
  intros Hinv Hfail Hstep.
  pose proof (pool_step_inv _ _ _ _ Hinv Hstep) as Hinv1.
  destruct Hinv as [Hp Hf Hc Hr Hu]. unfold pool_step in Hstep.
  rewrite Hp in Hstep.
  destruct (workers s !! i) as [[|u|r|]|] eqn:Hw; try done.
  injection Hstep as <-.
  assert (i < length (workers s)) as Hi by (by eapply lookup_lt_Some).
  assert (results_closed s = false) as Hrc.
  { destruct (results_closed s) eqn:Hrc; [|done]. specialize (Hc eq_refl).
    eapply Forall_lookup_1 in Hc; [|exact Hw]. done. }
  cbn. repeat split; try done.
  - intros j Hj. by rewrite list_lookup_insert_ne.
  - exists u. unfold pool_step. cbn. rewrite Hp.
    rewrite list_lookup_insert_eq by done. rewrite Hrc.
    eexists. split; [done|]. split; [reflexivity|]. cbn.
    unfold worker_result. rewrite Hfail. split; [done|].
    split.
    + rewrite list_lookup_insert_eq; [done|]. by rewrite length_insert.
    + intros j Hj. by rewrite !list_lookup_insert_ne.
Qed.

(** C1: for a non-empty URL list of length L the worker count W is the
    configured one, or the CPU count when that is not positive, capped at L,
    so 1 ≤ W ≤ L; no run of the pool panics or takes more than
    3L + W + 2 steps; while the result channel is open some step is
    enabled, so no schedule and no fetch outcome blocks the pool, and every
    run extends to one that closes the channel; when it is closed exactly L
    results have been received and their URLs are the submitted ones, each
    once; and a failing fetch changes its own worker only, which delivers a
    failure result and waits for the next task. *)
Theorem pool_delivers_every_url `{!Host} (nworkers : Z) (urls : list string)
    (es : list pool_event) (s : pool) :
  urls ≠ [] →
  pool_run (pool_init nworkers urls) es = Some s →
  let W := pool_size nworkers urls in
  let L := length urls in
  (1 <= W <= Z.of_nat L)%Z
  ∧ W = Z.min (if (nworkers <=? 0)%Z then NumCPU else nworkers) (Z.of_nat L)
  ∧ length (workers s) = Z.to_nat W
  ∧ pool_panic s = false
  ∧ length es + steps_left s = 3 * L + Z.to_nat W + 2
  ∧ (results_closed s = true →
     url <$> received s ≡ₚ urls ∧ length (received s) = L)
  ∧ (results_closed s = false → ∃ e s', pool_step s e = Some s')
  ∧ (∃ es' s', pool_run s es' = Some s' ∧ results_closed s' = true)
  ∧ (∀ i resp e s1,
       fetchHTML resp = inr e → pool_step s (PFetched i resp) = Some s1 →
       feed s1 = feed s ∧ received s1 = received s
       ∧ (∀ j, j ≠ i → workers s1 !! j = workers s !! j)
       ∧ ∃ u s2, pool_step s1 (PResult i) = Some s2
           ∧ received s2 = received s ++ [{| url := u; og := ∅; err := Some e |}]
           ∧ workers s2 !! i = Some WReceiving).
Proof.
  intros Hne Hrun W L.
  pose proof (pool_size_bounds nworkers urls Hne) as HW.
  destruct (pool_run_inv urls es _ _ (pool_init_inv nworkers urls) Hrun)
    as (Hinv & Hsteps & Hlen).
  rewrite pool_init_steps in Hsteps.
  cbn in Hlen. rewrite length_replicate in Hlen.
  split; [done|]. split.
  { unfold W, L, pool_size.
    destruct (Z.ltb_spec (Z.of_nat (length urls))
                (if (nworkers <=? 0)%Z then NumCPU else nworkers)); lia. }
  split; [done|]. split; [by destruct Hinv|]. split; [unfold L, W; lia|].
  split; [|split; [|split]].
  - intros Hrc.
    destruct (pool_closed_complete urls s Hinv Hrc) as [Hperm _].
    { intros Hnil. rewrite Hnil in Hlen. cbn in Hlen. unfold W in *. lia. }
    split; [done|]. unfold L. rewrite <- Hperm. by rewrite length_fmap.
  - intros Hrc. apply pool_progress; [by destruct Hinv|done].
  - by apply (pool_completes urls).
  - intros i resp e s1 Hfail Hstep.
    destruct (pool_failure_isolated urls s i resp e s1 Hinv Hfail Hstep)
      as (? & ? & _ & _ & _ & ? & u & s2 & _ & ? & ? & ? & _).
    repeat split; try done. by exists u, s2.
Qed.

Lemma pool_run_closed `{!Host} nworkers urls es s :
  urls ≠ [] → pool_run (pool_init nworkers urls) es = Some s →
  results_closed s = true → url <$> received s ≡ₚ urls.
Proof.
  intros Hne Hrun Hrc.
  pose proof (pool_size_bounds nworkers urls Hne) as HW.
  destruct (pool_run_inv urls es _ _ (pool_init_inv nworkers urls) Hrun)
    as (Hinv & _ & Hlen).
  cbn in Hlen. rewrite length_replicate in Hlen.
  apply (pool_closed_complete urls s Hinv Hrc).
  intros Hnil. rewrite Hnil in Hlen. cbn in Hlen. lia.
Qed.

Lemma inspect_report_outcome jsonOut rs :
  (inspect_report jsonOut None rs).2
  = if decide (Exists (fun r => is_Some (err r)) rs)
    then Some ErrInspection else None.
Proof.
  unfold inspect_report, inspect_finish, inspect_collect.
  assert (exitCode (foldl (collect jsonOut) tally0 rs)
          = if decide (Exists (fun r => is_Some (err r)) rs) then 1%Z else 0%Z)
    as Hexit by apply collect_exitCode.
  destruct jsonOut; cbn; rewrite Hexit;
    by destruct (decide (Exists (fun r => is_Some (err r)) rs)).
Qed.

Lemma inspect_report_table rs :
  (inspect_report false None rs).1
  = rs ≫= fun r =>
      match err r with
      | Some e => [OutFetchError (url r) e]
      | None => [OutTable (url r) (og r); (printMissing (og r) false).1]
      end.
Proof.
  unfold inspect_report, inspect_finish, inspect_collect. cbn.
  by rewrite collect_table_printed.
Qed.

Lemma inspect_report_json rs :
  (inspect_report true None rs).1
  = (rs ≫= fun r =>
       match err r with
       | Some e => [OutFetchError (url r) e]
       | None => []
       end)
    ++ [OutJSON (foldl store ∅
          (omap (fun r => match err r with
                          | None => Some (url r, og r)
                          | Some _ => None
                          end) rs))].
Proof.
  unfold inspect_report, inspect_finish, inspect_collect. cbn.
  by rewrite collect_json_printed, collect_json_aggregated.
Qed.

Lemma inspect_report_result (jsonOut : bool) (enc_err : option string)
    (rs : list result) :
  (inspect_report jsonOut enc_err rs).2
  = match jsonOut, enc_err with
    | true, Some msg => Some (ErrEncode msg)
    | _, _ => if decide (Exists (fun r => is_Some (err r)) rs)
              then Some ErrInspection else None
    end.
Proof.
  destruct jsonOut, enc_err as [msg|]; [done| | |].
  - apply inspect_report_outcome.
  - apply (inspect_report_outcome false).
  - apply inspect_report_outcome.
Qed.

Lemma inspect_report_printed (jsonOut : bool) (enc_err : option string)
    (rs : list result) :
  (inspect_report jsonOut enc_err rs).1
  = match jsonOut, enc_err with
    | false, _ => (inspect_report false None rs).1
    | true, None => (inspect_report true None rs).1
    | true, Some _ =>
        rs ≫= fun r => match err r with
                       | Some e => [OutFetchError (url r) e]
                       | None => []
                       end
    end.
Proof.
  destruct jsonOut, enc_err as [msg|]; try done.
  unfold inspect_report, inspect_finish, inspect_collect. cbn.
  by rewrite collect_json_printed.
Qed.

(** C4 (amended): inspect returns only once the result channel is closed,
    on results whose URLs are the submitted ones; it returns an error
    exactly when some fetch failed or, in JSON mode, the aggregate could
    not be written; the aggregate error is returned exactly when some fetch
    failed and no write error takes its place; every failure is printed;
    in table mode every successful result is printed; in JSON mode, when
    the write succeeds, the aggregate has a key for the URL of every
    successful result, holding the snapshot of the last successful result
    received for that URL, and when the write fails no aggregate is
    printed. *)
Theorem inspect_reports_after_all `{!Host} (jsonOut : bool) (nworkers : Z)
    (enc_err : option string) (urls : list string) (es : list pool_event)
    (out : list Output) (res : option error) :
  urls ≠ [] →
  inspect jsonOut nworkers enc_err urls es = Some (out, res) →
  ∃ rs, url <$> rs ≡ₚ urls
    ∧ (out, res) = inspect_report jsonOut enc_err rs
    ∧ (is_Some res
       ↔ (∃ r, r ∈ rs ∧ is_Some (err r)) ∨ (jsonOut = true ∧ is_Some enc_err))
    ∧ (res = Some ErrInspection
       ↔ (∃ r, r ∈ rs ∧ is_Some (err r)) ∧ ¬ (jsonOut = true ∧ is_Some enc_err))
    ∧ (∀ msg, res = Some (ErrEncode msg) ↔ jsonOut = true ∧ enc_err = Some msg)
    ∧ (res = None
       ↔ (∀ r, r ∈ rs → err r = None) ∧ ¬ (jsonOut = true ∧ is_Some enc_err))
    ∧ (∀ r e, r ∈ rs → err r = Some e → OutFetchError (url r) e ∈ out)
    ∧ (jsonOut = false →
       ∀ r, r ∈ rs → err r = None → OutTable (url r) (og r) ∈ out)
    ∧ (jsonOut = true → enc_err = None →
       ∃ agg, OutJSON agg ∈ out
         ∧ (∀ r, r ∈ rs → err r = None → is_Some (agg !! url r))
         ∧ (∀ before r after, rs = before ++ r :: after → err r = None →
              (∀ r', r' ∈ after → err r' = None → url r' ≠ url r) →
              agg !! url r = Some (og r))
         ∧ (∀ u o, agg !! u = Some o →
              ∃ r, r ∈ rs ∧ err r = None ∧ url r = u ∧ og r = o))
    ∧ (jsonOut = true → is_Some enc_err → ∀ agg, OutJSON agg ∉ out).
Proof.
  intros Hne Hrun. unfold inspect in Hrun.
  destruct urls as [|u0 urls']; [done|].
  destruct (pool_run (pool_init nworkers (u0 :: urls')) es) as [s|] eqn:Hpool;
    [|done].
  destruct (results_closed s) eqn:Hrc; [|done].
  destruct (pool_panic s); [done|]. cbn in Hrun. injection Hrun as Hrun.
  exists (received s). split; [by eapply pool_run_closed|].
  split; [congruence|].
  assert (res = (inspect_report jsonOut enc_err (received s)).2) as Hres
    by (by rewrite Hrun).
  assert (out = (inspect_report jsonOut enc_err (received s)).1) as Hout
    by (by rewrite Hrun).
  rewrite inspect_report_result in Hres.
  rewrite inspect_report_printed in Hout.
  assert (Exists (fun r => is_Some (err r)) (received s)
          ↔ ∃ r, r ∈ received s ∧ is_Some (err r)) as Hex
    by apply Exists_exists.
  assert ((∀ r, r ∈ received s → err r = None)
          ↔ ¬ Exists (fun r => is_Some (err r)) (received s)) as Hall.
  { rewrite Hex. split.
    - intros Hn (r & Hin & Hs). rewrite (Hn r Hin) in Hs. by destruct Hs.
    - intros Hn r Hin. destruct (err r) as [e|] eqn:Hr; [|done].
      destruct Hn. exists r. rewrite Hr. eauto. }
  assert (∀ e : error, is_Some (Some e)) as Hsome by eauto.
  assert (¬ is_Some (@None string)) as Hnone1 by (by intros [? ?]).
  assert (¬ is_Some (@None error)) as Hnone2 by (by intros [? ?]).
  split; [|split; [|split; [|split; [|split; [|split; [|split]]]]]].
  - rewrite <- Hex, Hres.
    destruct (decide (Exists (fun r => is_Some (err r)) (received s)));
      destruct jsonOut, enc_err as [msg|]; naive_solver.
  - rewrite <- Hex, Hres.
    destruct (decide (Exists (fun r => is_Some (err r)) (received s)));
      destruct jsonOut, enc_err as [msg|]; naive_solver.
  - intros msg. rewrite Hres.
    destruct (decide (Exists (fun r => is_Some (err r)) (received s)));
      destruct jsonOut, enc_err as [msg'|]; naive_solver.
  - rewrite Hall, Hres.
    destruct (decide (Exists (fun r => is_Some (err r)) (received s)));
      destruct jsonOut, enc_err as [msg|]; naive_solver.
  - intros r e Hin Hr. rewrite Hout.
    destruct jsonOut, enc_err as [msg|];
      rewrite ?inspect_report_json, ?inspect_report_table, ?elem_of_app;
      try left; apply list_elem_of_bind; exists r; (split; [|done]);
      rewrite Hr; by left.
  - intros -> r Hin Hr. rewrite Hout, inspect_report_table.
    apply list_elem_of_bind. exists r. split; [|done]. rewrite Hr. by left.
  - intros -> ->. eexists. split.
    { rewrite Hout, inspect_report_json, elem_of_app. right. by left. }
    split; [|split].
    + intros r Hin Hr. apply store_present. apply list_elem_of_fmap.
      exists (url r, og r). split; [done|].
      apply elem_of_json_stores. by exists r.
    + intros before r after Hsplit Hr Hlast.
      rewrite Hsplit, omap_app. cbn [omap list_omap]. rewrite Hr.
      rewrite foldl_app. cbn [foldl]. rewrite store_absent.
      { unfold store. cbn. apply lookup_insert_eq. }
      intros Hin. apply list_elem_of_fmap in Hin as [[u o] [Hu Hin]].
      cbn in Hu. subst u.
      apply elem_of_json_stores in Hin as (r' & Hin & Hr' & Hurl & _).
      by apply (Hlast r' Hin Hr').
    + intros u o Hl. apply store_origin in Hl as [Hin|Hl];
        [|by rewrite lookup_empty in Hl].
      by apply elem_of_json_stores.
  - intros -> [msg ->] agg. rewrite Hout. intros Hin.
    apply list_elem_of_bind in Hin as (r & Hin & _).
    destruct (err r); [|by apply elem_of_nil in Hin].
    by apply list_elem_of_singleton in Hin.
Qed.

(** ** Monitor *)

Lemma fetchHTML_failures :
  (∀ msg, fetchHTML (NoResponse msg) = inr (ErrTransport msg))
  ∧ (∀ code status body, (400 <= code)%Z →
       fetchHTML (Reply code status body) = inr (ErrStatus code status)).
Proof.
  split; [done|]. intros code status body Hcode. cbn.
  unfold StatusBadRequest. by destruct (Z.leb_spec 400 code); [|lia].
Qed.

Lemma render_first (ev : event) :
  render ∅ ev
  = (if decide (0 < size (diffMaps ∅ (ev_og ev)))
     then Some (OutDiff (ts ev) (diffMaps ∅ (ev_og ev))) else None,
     ev_og ev).
Proof. done. Qed.

Lemma diffMaps_first (og : Snapshot) (k : string) :
  diffMaps ∅ og !! k
  = if decide (get og k = "") then None else Some ("", get og k).
Proof.
  rewrite diffMaps_lookup, get_empty.
  destruct (decide (get og k = "")) as [Heq|Hne].
  - by rewrite decide_True.
  - by rewrite decide_False.
Qed.

Lemma render_same (ev : event) : render (ev_og ev) ev = (None, ev_og ev).
Proof. unfold render. rewrite diffMaps_same. by rewrite map_size_empty. Qed.

(** What a delivery does when the channel is open. *)
Lemma monitor_deliver `{!Host} s i ev s' :
  fetchers s !! i = Some (FSending ev) →
  monitor_step s (MDeliver i) = Some s' → mon_panic s' = false →
  diffChan_closed s = false
  ∧ prev s' = (render (prev s) ev).2
  ∧ shown s' = shown s ++ option_list (render (prev s) ev).1
  ∧ fetchers s' = <[i := FReturned]> (fetchers s).
Proof.
  intros Hf Hstep Hp. unfold monitor_step in Hstep.
  destruct (mon_panic s || negb (render_live s)); [done|].
  rewrite Hf in Hstep. destruct (diffChan_closed s).
  - injection Hstep as <-. done.
  - destruct (render (prev s) ev) as [out baseline].
    injection Hstep as <-. done.
Qed.

Lemma pending_insert (fs : list fetcher) i f :
  fs !! i = Some FFetching → (∀ ev, f ≠ FSending ev) →
  omap (fun f => match f with FSending ev => Some ev | _ => None end)
       (<[i := f]> fs)
  = omap (fun f => match f with FSending ev => Some ev | _ => None end) fs.
Proof.
  intros Hi Hf. destruct (list_insert_split _ _ _ Hi) as (l1 & l2 & -> & ->).
  rewrite !omap_app. cbn. destruct f as [|ev|]; [done| |done].
  by destruct (Hf ev).
Qed.

(** A fetch goroutine that has returned stays so. *)
Lemma returned_stays `{!Host} es : ∀ s s' i,
  fetchers s !! i = Some FReturned → monitor_run s es = Some s' →
  fetchers s' !! i = Some FReturned.
Proof.
  induction es as [|e es IH]; intros s s' i Hi Hrun.
  - by injection Hrun as <-.
  - cbn in Hrun. destruct (monitor_step s e) as [s1|] eqn:Hstep; [|done].
    apply (IH s1 s' i); [|done]. clear IH Hrun.
    assert (i < length (fetchers s)) as Hlt by (by eapply lookup_lt_Some).
    unfold monitor_step in Hstep.
    destruct (mon_panic s || negb (render_live s)); [done|].
    destruct e as [| | |j resp now|j|].
    + destruct (ctx_done s); [done|]. by injection Hstep as <-.
    + destruct (control_live s); [|done]. injection Hstep as <-. cbn.
      by rewrite lookup_app_l.
    + destruct (control_live s && ctx_done s); [|done]. by injection Hstep as <-.
    + destruct (fetchers s !! j) as [[|ev|]|] eqn:Hj; try done.
      assert (j ≠ i) by congruence.
      destruct (fetchHTML resp); injection Hstep as <-; cbn;
        by rewrite list_lookup_insert_ne.
    + destruct (fetchers s !! j) as [[|ev|]|] eqn:Hj; try done.
      assert (j ≠ i) by congruence.
      destruct (diffChan_closed s); [by injection Hstep as <-|].
      destruct (render (prev s) ev). injection Hstep as <-. cbn.
      by rewrite list_lookup_insert_ne.
    + destruct (diffChan_closed s); [|done]. by injection Hstep as <-.
Qed.

(** C6: when a fetch cycle of the monitor fails, for lack of a response or
    on a status of 400 or more, nothing is sent on the event channel for
    that cycle, now or later; the baseline and the pending events are
    unchanged; only the error is printed; and the control loop, the channel
    and the render loop are as before, so the next tick is dispatched. *)
Theorem monitor_fetch_failure `{!Host} (s s' : monitor) (i : nat)
    (resp : Response) (now : string) (e : error) :
  fetchHTML resp = inr e →
  monitor_step s (MFetched i resp now) = Some s' →
  prev s' = prev s
  ∧ pending s' = pending s
  ∧ shown s' = shown s ++ [OutError e]
  ∧ monitor_step s' (MDeliver i) = None
  ∧ (∀ es s'', monitor_run s' es = Some s'' → fetchers s'' !! i = Some FReturned)
  ∧ (∀ j, j ≠ i → fetchers s' !! j = fetchers s !! j)
  ∧ control_live s' = control_live s ∧ ctx_done s' = ctx_done s
  ∧ diffChan_closed s' = diffChan_closed s
  ∧ render_live s' = true ∧ mon_panic s' = false
  ∧ (control_live s = true →
     ∃ s2, monitor_step s' MTick = Some s2
           ∧ fetchers s2 = fetchers s' ++ [FFetching] ∧ prev s2 = prev s)
  ∧ (∀ msg, fetchHTML (NoResponse msg) = inr (ErrTransport msg))
  ∧ (∀ code status body, (400 <= code)%Z →
       fetchHTML (Reply code status body) = inr (ErrStatus code status)).
Proof.
  intros Hfail Hstep. unfold monitor_step in Hstep.
  destruct (mon_panic s || negb (render_live s)) eqn:Hlive; [done|].
  destruct (fetchers s !! i) as [[|ev|]|] eqn:Hi; try done.
  rewrite Hfail in Hstep. injection Hstep as <-.
  assert (i < length (fetchers s)) as Hlt by (by eapply lookup_lt_Some).
  assert (<[i:=FReturned]> (fetchers s) !! i = Some FReturned) as Hret
    by (by apply list_lookup_insert_eq).
  cbn. split; [done|]. split.
  { unfold pending. cbn. by apply pending_insert. }
  split; [done|]. split.
  { unfold monitor_step. cbn. by rewrite Hret. }
  split.
  { intros es s'' Hrun. by eapply returned_stays in Hrun. }
  split.
  { intros j Hj. by rewrite list_lookup_insert_ne. }
  do 5 (split; [done|]). split.
  { intros Hc. unfold monitor_step. cbn. rewrite Hc. eauto. }
  apply fetchHTML_failures.
Qed.

(** A step other than a delivery leaves the baseline alone and prints at
    most a fetch error. *)
Lemma monitor_other_step `{!Host} s e s' :
  monitor_step s e = Some s' → is_deliver e = false →
  prev s' = prev s
  ∧ (shown s' = shown s ∨ ∃ err, shown s' = shown s ++ [OutError err]).
Proof.
  intros Hstep He. unfold monitor_step in Hstep.
  destruct (mon_panic s || negb (render_live s)); [done|].
  destruct e as [| | |i resp now|i|]; try done.
  - destruct (ctx_done s); [done|]. injection Hstep as <-. split; [done|by left].
  - destruct (control_live s); [|done]. injection Hstep as <-.
    split; [done|by left].
  - destruct (control_live s && ctx_done s); [|done]. injection Hstep as <-.
    split; [done|by left].
  - destruct (fetchers s !! i) as [[|ev|]|]; try done.
    destruct (fetchHTML resp) as [html|err]; injection Hstep as <-.
    + split; [done|by left].
    + split; [done|]. right. by exists err.
  - destruct (diffChan_closed s); [|done]. injection Hstep as <-.
    split; [done|by left].
Qed.

Lemma monitor_other_run `{!Host} es : ∀ s s',
  monitor_run s es = Some s' → Forall (fun e => is_deliver e = false) es →
  prev s' = prev s
  ∧ ∀ ts d, OutDiff ts d ∈ shown s' → OutDiff ts d ∈ shown s.
Proof.
  induction es as [|e es IH]; intros s s' Hrun Hno.
  - by injection Hrun as <-.
  - cbn in Hrun. destruct (monitor_step s e) as [s1|] eqn:Hstep; [|done].
    apply Forall_cons in Hno as [He Hno].
    destruct (monitor_other_step s e s1 Hstep He) as [Hp Hs].
    destruct (IH s1 s' Hrun Hno) as [Hp' Hs'].
    split; [congruence|]. intros ts d Hin. apply Hs' in Hin.
    destruct Hs as [Hs|[err Hs]]; rewrite Hs in Hin; [done|].
    apply elem_of_app in Hin as [Hin|Hin]; [done|].
    by apply list_elem_of_singleton in Hin.
Qed.

(** Every event waiting to be delivered carries the snapshot extracted
    from a fetched page. *)
Lemma monitor_events_extracted `{!Host} es : ∀ s s',
  monitor_run s es = Some s' →
  Forall (fun f => ∀ ev, f = FSending ev → ∃ html, ev_og ev = parseOG html)
         (fetchers s) →
  Forall (fun f => ∀ ev, f = FSending ev → ∃ html, ev_og ev = parseOG html)
         (fetchers s').
Proof.
  induction es as [|e es IH]; intros s s' Hrun Hinv.
  - by injection Hrun as <-.
  - cbn in Hrun. destruct (monitor_step s e) as [s1|] eqn:Hstep; [|done].
    apply (IH s1 s' Hrun). clear IH Hrun.
    unfold monitor_step in Hstep.
    destruct (mon_panic s || negb (render_live s)); [done|].
    destruct e as [| | |i resp now|i|].
    + destruct (ctx_done s); [done|]. by injection Hstep as <-.
    + destruct (control_live s); [|done]. injection Hstep as <-. cbn.
      apply Forall_app. split; [done|]. by apply Forall_singleton.
    + destruct (control_live s && ctx_done s); [|done]. by injection Hstep as <-.
    + destruct (fetchers s !! i) as [[|ev|]|]; try done.
      destruct (fetchHTML resp) as [html|err]; injection Hstep as <-; cbn.
      * apply Forall_insert; [done|]. intros ev [= <-]. by exists html.
      * by apply Forall_insert.
    + destruct (fetchers s !! i) as [[|ev|]|]; try done.
      destruct (diffChan_closed s); [by injection Hstep as <-|].
      destruct (render (prev s) ev). injection Hstep as <-. cbn.
      by apply Forall_insert.
    + destruct (diffChan_closed s); [|done]. by injection Hstep as <-.
Qed.

(** C3 (amended): in the monitor loop the first delivery of a run meets
    the empty baseline and carries the snapshot extracted from the fetched
    page; it yields the ChangeSet that holds every extracted key whose
    value is not empty, as old "" and new the extracted value; that
    ChangeSet is printed unless it is empty, and the snapshot becomes the
    baseline.  Whatever ticks and fetches follow, the baseline stays, and
    the next delivery, when it carries an identical snapshot, yields the
    empty ChangeSet and prints nothing. *)
Theorem monitor_first_cycle `{!Host} (es0 : list monitor_event)
    (s s' : monitor) (i : nat) (ev : event) :
  monitor_run monitor_init es0 = Some s →
  Forall (fun e => is_deliver e = false) es0 →
  fetchers s !! i = Some (FSending ev) →
  monitor_step s (MDeliver i) = Some s' → mon_panic s' = false →
  let d := diffMaps ∅ (ev_og ev) in
  prev s = ∅
  ∧ (∃ html, ev_og ev = parseOG html)
  ∧ (∀ k, d !! k = if decide (get (ev_og ev) k = "") then None
                   else Some ("", get (ev_og ev) k))
  ∧ (∀ k v, ev_og ev !! k = Some v → v ≠ "" → d !! k = Some ("", v))
  ∧ shown s' = shown s ++ (if decide (0 < size d) then [OutDiff (ts ev) d] else [])
  ∧ prev s' = ev_og ev
  ∧ (∀ es1 s1 j ev2 s2,
       monitor_run s' es1 = Some s1 →
       Forall (fun e => is_deliver e = false) es1 →
       fetchers s1 !! j = Some (FSending ev2) → ev_og ev2 = ev_og ev →
       monitor_step s1 (MDeliver j) = Some s2 → mon_panic s2 = false →
       prev s1 = ev_og ev
       ∧ diffMaps (prev s1) (ev_og ev2) = ∅
       ∧ shown s2 = shown s1 ∧ prev s2 = ev_og ev
       ∧ ∀ ts c, OutDiff ts c ∈ shown s2 → OutDiff ts c ∈ shown s').
Proof.
  intros Hrun0 Hno0 Hi Hstep Hp d.
  destruct (monitor_other_run es0 _ _ Hrun0 Hno0) as [Hprev _].
  cbn in Hprev.
  assert (∃ html, ev_og ev = parseOG html) as Hpage.
  { pose proof (monitor_events_extracted es0 _ _ Hrun0) as Hall.
    eapply Forall_lookup_1 in Hall; [by apply Hall|by apply Forall_nil|exact Hi]. }
  destruct (monitor_deliver s i ev s' Hi Hstep Hp) as (_ & Hb & Hs & _).
  rewrite Hprev, render_first in Hb, Hs. cbn in Hb, Hs.
  split; [done|]. split; [done|].
  split; [apply diffMaps_first|]. split.
  { intros k v Hk Hv. unfold d. rewrite diffMaps_first, (get_Some _ _ _ Hk).
    by rewrite decide_False. }
  split. { rewrite Hs. unfold d. by destruct (decide _). }
  split; [done|].
  intros es1 s1 j ev2 s2 Hrun1 Hno1 Hj Heq Hstep2 Hp2.
  destruct (monitor_other_run es1 _ _ Hrun1 Hno1) as [Hprev1 Hshown1].
  destruct (monitor_deliver s1 j ev2 s2 Hj Hstep2 Hp2) as (_ & Hb2 & Hs2 & _).
  rewrite Hprev1, Hb, <- Heq, render_same in Hb2, Hs2. cbn in Hb2, Hs2.
  rewrite app_nil_r in Hs2.
  split; [congruence|]. split; [by rewrite Hprev1, Hb, <- Heq, diffMaps_same|].
  split; [done|]. split; [congruence|]. rewrite Hs2. exact Hshown1.
Qed.

(** C5 (what the code does): once the control loop takes the cancellation
    branch it closes the event channel at once, whatever fetch is in flight;
    a fetch that succeeds afterwards, or one that was already waiting to
    hand over its event, sends on the closed channel and the program
    panics. *)
Theorem monitor_cancel_in_flight_panics `{!Host} (html now : string) :
  (∃ s, monitor_run monitor_init
          [MTick; MCancel; MDone; MFetched 0 (ok_reply html) now; MDeliver 0]
        = Some s
        ∧ mon_panic s = true ∧ render_live s = true ∧ shown s = [])
  ∧ (∃ s, monitor_run monitor_init
            [MTick; MFetched 0 (ok_reply html) now; MCancel; MDone; MDeliver 0]
          = Some s
          ∧ mon_panic s = true ∧ render_live s = true ∧ shown s = []).
Proof. split; (eexists; split; [reflexivity|done]). Qed.

(** * Further properties *)

(** ** diffMaps *)

Lemma diffMaps_empty_iff (old new : Snapshot) :
  diffMaps old new = ∅ ↔ ∀ k, get old k = get new k.
Proof.
  split.
  - intros Hd k. assert (diffMaps old new !! k = None) as Hk
      by (by rewrite Hd, lookup_empty).
    rewrite diffMaps_lookup in Hk. by destruct (decide (get old k = get new k)).
  - intros Hall. apply map_eq. intros k.
    rewrite diffMaps_lookup, lookup_empty. by rewrite decide_True.
Qed.

(** X1: the ChangeSet is empty exactly when the two snapshots read the
    same at every key, an absent key reading as the empty string; so it is
    empty for two equal snapshots, and also for snapshots that differ only
    by keys holding the empty string. *)
Theorem diffMaps_empty (old new : Snapshot) (k : string) :
  (diffMaps old new = ∅ ↔ ∀ k, get old k = get new k)
  ∧ diffMaps old old = ∅
  ∧ diffMaps (<[k := ""]> old) (delete k old) = ∅.
Proof.
  split; [apply diffMaps_empty_iff|]. split; [apply diffMaps_same|].
  apply diffMaps_empty_iff. intros k'. unfold get.
  destruct (decide (k = k')) as [->|Hne].
  - by rewrite lookup_insert_eq, lookup_delete_eq.
  - rewrite lookup_insert_ne by done. rewrite lookup_delete_ne by done.
    destruct (decide (k' = k)); [congruence|done].
Qed.

(** X2: the ChangeSet is a patch: at every key the new snapshot reads as
    the second component of the entry when there is one and as the old
    snapshot otherwise, and the old snapshot reads as the first component
    or as the new snapshot. *)
Theorem diffMaps_patch (old new : Snapshot) (k : string) :
  get new k = match diffMaps old new !! k with
              | Some p => p.2
              | None => get old k
              end
  ∧ get old k = match diffMaps old new !! k with
                | Some p => p.1
                | None => get new k
                end.
Proof.
  rewrite diffMaps_lookup.
  by destruct (decide (get old k = get new k)) as [->|Hne].
Qed.

(** X3: a key that changed between a first and a third snapshot changed
    between the first and the second or between the second and the third. *)
Theorem diffMaps_triangle (A B C : Snapshot) :
  dom (diffMaps A C) ⊆ dom (diffMaps A B) ∪ dom (diffMaps B C).
Proof.
  intros k. rewrite elem_of_union, !elem_of_dom, !diffMaps_lookup.
  destruct (decide (get A k = get C k)) as [Hac|Hac]; [by intros [? ?]|].
  intros _.
  destruct (decide (get A k = get B k)) as [Hab|Hab]; [|left; eauto].
  right. rewrite decide_False by congruence. eauto.
Qed.

(** X4: no entry of a ChangeSet has two equal components, in particular
    none has both empty, and the ChangeSet has at most as many entries as
    the two snapshots together. *)
Theorem diffMaps_entries (old new : Snapshot) :
  map_Forall (fun _ p => p.1 ≠ p.2 ∧ (p.1 ≠ "" ∨ p.2 ≠ "")) (diffMaps old new)
  ∧ (size (diffMaps old new) <= size old + size new)%nat.
Proof.
  split.
  - intros k [o n] Hk. rewrite diffMaps_lookup in Hk.
    destruct (decide (get old k = get new k)) as [Heq|Hne]; [done|].
    injection Hk as <- <-. cbn. split; [done|].
    destruct (decide (get old k = "")) as [Ho|Ho]; [|by left].
    right. congruence.
  - rewrite <- !size_dom, diffMaps_dom.
    etrans; [apply subseteq_size; intros k Hk; apply elem_of_filter in Hk as [_ Hk]; exact Hk|].
    rewrite size_union_alt.
    assert (size (dom new ∖ dom old) <= size (dom new))%nat; [|lia].
    apply subseteq_size. set_solver.
Qed.

(** ** parseOG *)

Lemma store_union {V} (kvs : list (string * V)) (m : gmap string V) :
  foldl store m kvs = foldl store ∅ kvs ∪ m.
Proof.
  induction kvs as [|[k v] kvs IH] using rev_ind.
  - cbn. by rewrite (left_id_L ∅ (∪)).
  - rewrite !foldl_app. cbn [foldl]. rewrite IH. unfold store. cbn.
    by rewrite insert_union_l.
Qed.

Lemma bind_writes_filter (ss : list Node) :
  filter (fun s => writes s ≠ []) ss ≫= writes = ss ≫= writes.
Proof.
  induction ss as [|s ss IH]; [done|].
  rewrite filter_cons. destruct (decide (writes s ≠ [])) as [Hw|Hw].
  - by rewrite !bind_cons, IH.
  - rewrite bind_cons, IH. apply dec_stable in Hw. by rewrite Hw.
Qed.

(** X5: [parseOG] depends on the og elements only, those for which the
    callback stores something: dropping every other meta element gives the
    same snapshot, and a document without og elements gives the empty one;
    and the snapshot of a document is the snapshot of its later part laid
    over the snapshot of its earlier part. *)
Theorem parseOG_only_og `{!Host} (html : string) :
  parseOG html
  = foldl visit ∅ (filter (fun s => writes s ≠ []) (meta_elements html))
  ∧ (Forall (fun s => writes s = []) (meta_elements html) → parseOG html = ∅)
  ∧ (∀ before after, meta_elements html = before ++ after →
       parseOG html = foldl visit ∅ after ∪ foldl visit ∅ before).
Proof.
  split; [|split].
  - by rewrite parseOG_store, foldl_visit_store, bind_writes_filter.
  - intros Hall. rewrite parseOG_store.
    assert (meta_elements html ≫= writes = []) as ->; [|done].
    induction Hall as [|s ss Hs _ IH]; [done|]. by rewrite bind_cons, Hs, IH.
  - intros before after Hsplit. unfold parseOG. rewrite Hsplit, foldl_app.
    rewrite !foldl_visit_store. apply store_union.
Qed.

(** ** printMissing, validate and semanticValidate *)

Lemma recommended_extends_essential :
  ∃ more, recommendedTags = essentialTags ++ more.
Proof. by eexists. Qed.

(** X6: validating the essential tags only is weaker than validating the
    recommended ones: the tags reported missing among the essential ones
    open the list reported for the recommended ones, and the exit code for
    the essential tags is never above the one for the recommended tags. *)
Theorem printMissing_essentials_weaker (og : Snapshot) :
  missing_of og essentialTags `prefix_of` missing_of og recommendedTags
  ∧ ((printMissing og true).2 <= (printMissing og false).2)%Z.
Proof.
  assert (missing_of og essentialTags `prefix_of` missing_of og recommendedTags)
    as Hpre.
  { destruct recommended_extends_essential as [more ->].
    rewrite !missing_of_filter, filter_app, fmap_app. by eexists. }
  split; [done|]. rewrite !printMissing_code. cbn [required_tags].
  destruct Hpre as [rest ->].
  destruct (missing_of og essentialTags) as [|m ms]; cbn.
  - by destruct rest.
  - done.
Qed.

#[local] Instance og_prefix_Inj : Inj (=) (=) (fun k => "og:" +:+ k).
Proof. intros k k'. apply og_prefix_inj. Qed.

Lemma required_tags_NoDup essentialsOnly : NoDup (required_tags essentialsOnly).
Proof. destruct essentialsOnly; by apply (bool_decide_unpack _); vm_compute. Qed.

(** X7: the list of missing tags keeps the order of the required list,
    names no tag twice, names required tags only, each with the og: prefix
    put back, and is no longer than the required list. *)
Theorem missing_of_shape (og : Snapshot) (essentialsOnly : bool) :
  missing_of og (required_tags essentialsOnly)
  = (fun k => "og:" +:+ k)
      <$> filter (fun k => get og k = "") (required_tags essentialsOnly)
  ∧ filter (fun k => get og k = "") (required_tags essentialsOnly)
      `sublist_of` required_tags essentialsOnly
  ∧ NoDup (missing_of og (required_tags essentialsOnly))
  ∧ (length (missing_of og (required_tags essentialsOnly))
     <= length (required_tags essentialsOnly))%nat.
Proof.
  split; [apply missing_of_filter|]. split; [apply sublist_filter|].
  rewrite missing_of_filter. split.
  - apply (NoDup_fmap_2 _). apply NoDup_filter, required_tags_NoDup.
  - rewrite length_fmap. apply length_filter.
Qed.


Lemma article_warnings_length (og : Snapshot) :
  (length (article_warnings og) <= 2)%nat.
Proof. unfold article_warnings. repeat case_decide; cbn; lia. Qed.

(** X9: [semanticValidate] panics exactly when the image value is not
    empty and no request can be built for it; without an image value it
    returns the article warnings without touching the network; when it
    returns, it gives at most four warnings, the article warnings last,
    the HTTPS warning first for an image URL of another scheme, and the
    error of the image check among them; the article warnings report an
    empty author and an empty section for type article and nothing for any
    other type. *)
Theorem semanticValidate_warnings `{!Host} (og : Snapshot) :
  (semanticValidate og = Panics
   ↔ ∃ u, og !! "image" = Some u ∧ u ≠ "" ∧ request_builds u = false)
  ∧ (get og "image" = "" → semanticValidate og = Returns (article_warnings og))
  ∧ (∀ ws, semanticValidate og = Returns ws →
       (length ws <= 4)%nat
       ∧ article_warnings og `suffix_of` ws
       ∧ (∀ u, og !! "image" = Some u → u ≠ "" → HasPrefix u "https://" = false →
               head ws = Some "og:image should use HTTPS")
       ∧ (∀ u e, og !! "image" = Some u → u ≠ "" →
                 checkImage u = Returns (Some e) → e ∈ ws))
  ∧ (get og "type" = "article" → get og "article:author" = "" →
     "article:author is missing" ∈ article_warnings og)
  ∧ (get og "type" = "article" → get og "article:section" = "" →
     "article:section is missing" ∈ article_warnings og)
  ∧ (get og "type" ≠ "article" → article_warnings og = []).
Proof.
  split; [apply semanticValidate_panics|].
  split; [|split; [|split; [|split]]].
  - unfold semanticValidate, get. destruct (og !! "image") as [u|]; [|done].
    cbn. intros ->. by rewrite decide_False by (by intros ?).
  - intros ws Hws. pose proof (article_warnings_length og) as Hlen.
    unfold semanticValidate in Hws.
    destruct (og !! "image") as [u|].
    + destruct (decide (u ≠ "")) as [Hu|Hu].
      * destruct (checkImage u) as [[e|]| |] eqn:Hc; try done;
          injection Hws as <-.
        -- split; [destruct (HasPrefix u "https://");
                   rewrite !length_app; cbn; lia|].
           split; [by eexists|]. split.
           ++ intros u' [= <-] _ ->. done.
           ++ intros u' e' [= <-] _ Hc'. rewrite Hc in Hc'. injection Hc' as <-.
              rewrite !elem_of_app. left. right. by left.
        -- split; [destruct (HasPrefix u "https://");
                   rewrite ?length_app; cbn; lia|].
           split; [by eexists|]. split.
           ++ intros u' [= <-] _ ->. done.
           ++ intros u' e' [= <-] _ Hc'. by rewrite Hc in Hc'.
      * injection Hws as <-. split; [lia|]. split; [done|]. split.
        -- intros u' [= <-] Hne. by destruct Hu.
        -- intros u' e' [= <-] Hne. by destruct Hu.
    + injection Hws as <-. split; [lia|]. split; [done|]. split; by intros.
  - intros Ht Ha. unfold article_warnings.
    rewrite decide_True by done. rewrite (decide_True _ _ Ha).
    rewrite elem_of_app. left. by left.
  - intros Ht Hs. unfold article_warnings.
    rewrite decide_True by done. rewrite (decide_True _ _ Hs).
    rewrite elem_of_app. right. by left.
  - intros Ht. unfold article_warnings. by rewrite decide_False.
Qed.

(** X22: [checkImage] panics exactly when no request can be built for the
    URL; it blocks for ever exactly when the HEAD reply passes the size
    test and the GET request is never answered; it accepts the image
    exactly when the HEAD reply passes the size test, the body is read,
    the image decodes to at least 1200 by 630 and the ratio test passes;
    and a Content-Length above 5 MiB is reported without the image being
    downloaded. *)
Theorem checkImage_outcome `{!Host} (u : string) :
  (checkImage u = Panics ↔ request_builds u = false)
  ∧ (checkImage u = Hangs
     ↔ request_builds u = true
       ∧ ∃ cl, http_head u = HeadReply cl
           ∧ (cl = "" ∨ (ParseInt cl <= 5 * 1024 * 1024)%Z)
           ∧ http_get u = GetNever)
  ∧ (checkImage u = Returns None
     ↔ request_builds u = true
       ∧ ∃ cl data w h, http_head u = HeadReply cl
           ∧ (cl = "" ∨ (ParseInt cl <= 5 * 1024 * 1024)%Z)
           ∧ http_get u = GetReply (inl data)
           ∧ DecodeConfig data = inl (w, h)
           ∧ (1200 <= w)%Z ∧ (630 <= h)%Z ∧ ratio_off w h = false)
  ∧ (∀ cl, request_builds u = true → http_head u = HeadReply cl →
       cl ≠ "" → (5 * 1024 * 1024 < ParseInt cl)%Z →
       checkImage u = Returns (Some "og:image is larger than 5 MB")).
Proof.
  assert (∀ cl, negb (String.eqb cl "") && (5 * 1024 * 1024 <? ParseInt cl)%Z = false
                ↔ cl = "" ∨ (ParseInt cl <= 5 * 1024 * 1024)%Z) as Hsize.
  { intros cl. destruct (String.eqb_spec cl "") as [->|Hne]; cbn.
    - split; [by left|done].
    - destruct (Z.ltb_spec (5 * 1024 * 1024) (ParseInt cl)); split; try done.
      + intros [?|?]; [done|lia].
      + intros _. right. lia. }
  split; [apply checkImage_panics|]. unfold checkImage.
  destruct (request_builds u).
  2:{ split; [|split]; [split; [done|by intros [? _]]
                        |split; [done|by intros [? _]]|done]. }
  destruct (http_head u) as [msg|cl].
  { split; [|split]; [split; [done|by intros (_ & ? & ? & _)]
                     |split; [done|by intros (_ & ? & ? & ? & ? & ? & _)]
                     |by intros ? _ ?]. }
  pose proof (Hsize cl) as Hcl.
  destruct (negb (String.eqb cl "") && (5 * 1024 * 1024 <? ParseInt cl)%Z)
    eqn:Hbig.
  { assert (¬ (cl = "" ∨ (ParseInt cl <= 5 * 1024 * 1024)%Z)) as Hn.
    { intros Hok. by apply Hcl in Hok. }
    split; [|split]; [split; [done|]|split; [done|]|done].
    - intros (_ & cl' & [= <-] & Hok & _). by destruct Hn.
    - intros (_ & cl' & ? & ? & ? & [= <-] & Hok & _). by destruct Hn. }
  assert (cl = "" ∨ (ParseInt cl <= 5 * 1024 * 1024)%Z) as Hok by (by apply Hcl).
  split; [|split].
  - destruct (http_get u) as [|msg|[data|msg]].
    + split; [|done]. intros _. split; [done|]. by exists cl.
    + split; [done|]. by intros (_ & ? & _ & _ & ?).
    + split; [|by intros (_ & ? & _ & _ & ?)].
      destruct (DecodeConfig data) as [[w h]|msg]; [|done].
      repeat case_match; done.
    + split; [done|]. by intros (_ & ? & _ & _ & ?).
  - destruct (http_get u) as [|msg|[data|msg]].
    + split; [done|]. by intros (_ & ? & ? & ? & ? & _ & _ & ? & _).
    + split; [done|]. by intros (_ & ? & ? & ? & ? & _ & _ & ? & _).
    + destruct (DecodeConfig data) as [[w h]|msg] eqn:Hd.
      * destruct (Z.ltb_spec w 1200); cbn.
        { split; [done|].
          intros (_ & ? & ? & w' & h' & _ & _ & [= <-] & Hd' & ? & _).
          rewrite Hd in Hd'. injection Hd' as <- <-. lia. }
        destruct (Z.ltb_spec h 630); cbn.
        { split; [done|].
          intros (_ & ? & ? & w' & h' & _ & _ & [= <-] & Hd' & _ & ? & _).
          rewrite Hd in Hd'. injection Hd' as <- <-. lia. }
        destruct (ratio_off w h) eqn:Hr.
        { split; [done|].
          intros (_ & ? & ? & w' & h' & _ & _ & [= <-] & Hd' & _ & _ & Hr').
          rewrite Hd in Hd'. injection Hd' as <- <-. congruence. }
        split; [|done]. intros _. split; [done|].
        by exists cl, data, w, h.
      * split; [done|].
        intros (_ & ? & ? & ? & ? & _ & _ & [= <-] & Hd' & _).
        rewrite Hd in Hd'. done.
    + split; [done|]. by intros (_ & ? & ? & ? & ? & _ & _ & ? & _).
  - intros cl' _ [= <-] Hne Hgt. destruct Hok as [?|?]; [done|lia].
Qed.

(** ** fetchHTML *)

(** X10: [fetchHTML] returns a document exactly when there was a reply
    with a status below 400 whose body could be read, and then returns that
    body; a status of 400 or more is an error whatever the body; and its
    errors are transport, status and document errors only. *)
Theorem fetchHTML_outcome (resp : Response) :
  (∀ html, fetchHTML resp = inl html
           ↔ ∃ code status, resp = Reply code status (inl html) ∧ (code < 400)%Z)
  ∧ (∀ code status body body', (400 <= code)%Z →
       fetchHTML (Reply code status body) = fetchHTML (Reply code status body'))
  ∧ (∀ e, fetchHTML resp = inr e →
          (∃ msg, e = ErrTransport msg) ∨ (∃ code status, e = ErrStatus code status)
          ∨ (∃ msg, e = ErrDocument msg)).
Proof.
  split; [|split].
  - intros html. split.
    + destruct resp as [msg|code status body]; [done|]. cbn.
      unfold StatusBadRequest. destruct (Z.leb_spec 400 code); [done|].
      destruct body as [h|m]; [|done]. intros [= ->]. by exists code, status.
    + intros (code & status & -> & Hc). cbn. unfold StatusBadRequest.
      by destruct (Z.leb_spec 400 code); [lia|].
  - intros code status body body' Hc. cbn. unfold StatusBadRequest.
    by destruct (Z.leb_spec 400 code); [|lia].
  - intros e. destruct resp as [msg|code status body]; cbn.
    + intros [= <-]. left. by exists msg.
    + destruct (StatusBadRequest <=? code)%Z.
      * intros [= <-]. right. left. by exists code, status.
      * destruct body as [h|m]; [done|]. intros [= <-]. right. right. by exists m.
Qed.

(** ** The worker pool *)

Lemma in_flight_bound (ws : list worker) :
  (length (ws ≫= worker_urls) <= length ws)%nat.
Proof.
  induction ws as [|w ws IH]; [done|].
  rewrite bind_cons, length_app. destruct w; cbn; lia.
Qed.

(** X11: the pool is bounded: at every point of every run the number of
    URLs taken from the queue and not yet answered to the main loop is at
    most the worker count, hence at most the configured count (or the CPU
    count when that is not positive) and at most the number of URLs. *)
Theorem pool_bounded_parallelism `{!Host} (nworkers : Z) (urls : list string)
    (es : list pool_event) (s : pool) :
  pool_run (pool_init nworkers urls) es = Some s →
  (length (in_flight s) <= Z.to_nat (pool_size nworkers urls))%nat
  ∧ (Z.of_nat (length (in_flight s))
     <= (if (nworkers <=? 0)%Z then NumCPU else nworkers))%Z
  ∧ (length (in_flight s) <= length urls)%nat.
Proof.
  intros Hrun.
  destruct (pool_run_inv urls es _ _ (pool_init_inv nworkers urls) Hrun)
    as (_ & _ & Hlen).
  cbn in Hlen. rewrite length_replicate in Hlen.
  pose proof (in_flight_bound (workers s)) as Hb. fold (in_flight s) in Hb.
  pose proof NumCPU_pos as Hcpu.
  assert (length (in_flight s) <= Z.to_nat (pool_size nworkers urls))%nat
    as Hw by lia.
  split; [done|]. revert Hw. unfold pool_size.
  destruct (Z.leb_spec nworkers 0);
    [destruct (Z.ltb_spec (Z.of_nat (length urls)) NumCPU)
    |destruct (Z.ltb_spec (Z.of_nat (length urls)) nworkers)]; lia.
Qed.

Lemma pool_closed_state urls s :
  pool_inv urls s → results_closed s = true → workers s ≠ [] →
  feed s = [] ∧ tasks_closed s = true ∧ Forall (eq WReturned) (workers s).
Proof.
  intros [Hp Hf Hc Hr Hu] Hrc Hne. specialize (Hc Hrc).
  assert (tasks_closed s = true) as Ht.
  { apply Hr. destruct (workers s) as [|w l]; [done|].
    apply Forall_cons in Hc as [<- _]. by left. }
  by rewrite (Hf Ht).
Qed.

(** X12: when the result channel is closed every goroutine of the pool has
    finished: the feeder has sent every URL and closed the task channel,
    every worker has returned, nothing is in flight and no step is left;
    and every run that reaches this point has exactly 3L + W + 2 steps. *)
Theorem pool_closed_terminal `{!Host} (nworkers : Z) (urls : list string)
    (es : list pool_event) (s : pool) :
  urls ≠ [] →
  pool_run (pool_init nworkers urls) es = Some s →
  results_closed s = true →
  feed s = [] ∧ tasks_closed s = true
  ∧ Forall (eq WReturned) (workers s) ∧ in_flight s = []
  ∧ length es = 3 * length urls + Z.to_nat (pool_size nworkers urls) + 2
  ∧ ∀ e, pool_step s e = None.
Proof.
  intros Hne Hrun Hrc.
  pose proof (pool_size_bounds nworkers urls Hne) as HW.
  destruct (pool_run_inv urls es _ _ (pool_init_inv nworkers urls) Hrun)
    as (Hinv & Hsteps & Hlen).
  rewrite pool_init_steps in Hsteps.
  cbn in Hlen. rewrite length_replicate in Hlen.
  assert (workers s ≠ []) as Hws.
  { intros Hnil. rewrite Hnil in Hlen. cbn in Hlen. lia. }
  destruct (pool_closed_state urls s Hinv Hrc Hws) as (Hfeed & Ht & Hall).
  destruct (pool_closed_complete urls s Hinv Hrc Hws) as [_ Hzero].
  destruct (returned_in_flight _ Hall) as [Hfl _].
  split; [done|]. split; [done|]. split; [done|]. split; [done|].
  split; [lia|].
  intros e. unfold pool_step. destruct (pool_panic s); [done|].
  assert (∀ i, workers s !! i = Some WReturned ∨ workers s !! i = None) as Hw.
  { intros i. destruct (workers s !! i) as [w|] eqn:Hi; [|by right].
    left. eapply Forall_lookup_1 in Hall; [|exact Hi]. by subst w. }
  destruct e as [i| |i resp|i|i|]; rewrite ?Hfeed, ?Ht, ?Hrc; try done;
    by destruct (Hw i) as [-> | ->].
Qed.

(** ** Inspect: aggregation *)

Lemma json_stores_NoDup (rs : list result) r :
  NoDup (url <$> rs) → r ∈ rs → err r = None →
  foldl store (∅ : gmap string Snapshot)
    (omap (fun r => match err r with
                    | None => Some (url r, og r)
                    | Some _ => None
                    end) rs) !! url r = Some (og r).
Proof.
  intros Hnd Hin Hr. apply store_agree.
  - apply elem_of_json_stores. by exists r.
  - intros o Ho. apply elem_of_json_stores in Ho as (r' & Hin' & _ & Hurl & <-).
    assert (r' = r) as ->; [|done].
    apply list_elem_of_lookup in Hin as [i Hi].
    apply list_elem_of_lookup in Hin' as [j Hj].
    assert (i = j) as ->.
    { eapply (NoDup_lookup (url <$> rs)); [done| |].
      - by rewrite list_lookup_fmap, Hi.
      - rewrite list_lookup_fmap, Hj. cbn. by rewrite Hurl. }
    congruence.
Qed.

(** X13: the outcome of inspect does not depend on the order in which the
    results arrive: the exit code and the returned error are the same for
    every arrival order, and when the URLs are pairwise distinct so is the
    JSON aggregate. *)
Theorem inspect_report_order (jsonOut : bool) (enc_err : option string)
    (rs rs' : list result) :
  rs ≡ₚ rs' →
  exitCode (inspect_collect jsonOut rs) = exitCode (inspect_collect jsonOut rs')
  ∧ (inspect_report jsonOut enc_err rs).2 = (inspect_report jsonOut enc_err rs').2
  ∧ (NoDup (url <$> rs) →
     aggregated (inspect_collect true rs) = aggregated (inspect_collect true rs')).
Proof.
  intros Hperm.
  assert (exitCode (inspect_collect jsonOut rs)
          = exitCode (inspect_collect jsonOut rs')) as Hexit.
  { unfold inspect_collect. rewrite !collect_exitCode.
    destruct (decide (Exists _ rs)) as [He|Hn].
    - rewrite decide_True; [done|]. by rewrite <- Hperm.
    - rewrite decide_False; [done|]. by rewrite <- Hperm. }
  split; [done|]. split.
  - unfold inspect_report, inspect_finish. rewrite Hexit.
    by destruct jsonOut, enc_err.
  - intros Hnd. unfold inspect_collect. rewrite !collect_json_aggregated. cbn.
    assert (NoDup (url <$> rs')) as Hnd' by (by rewrite <- Hperm).
    assert (∀ l l' : list result, l ≡ₚ l' → NoDup (url <$> l) → ∀ u o,
              foldl store (∅ : gmap string Snapshot)
                (omap (fun r => match err r with
                                | None => Some (url r, og r)
                                | Some _ => None
                                end) l) !! u = Some o →
              foldl store (∅ : gmap string Snapshot)
                (omap (fun r => match err r with
                                | None => Some (url r, og r)
                                | Some _ => None
                                end) l') !! u = Some o) as Hone.
    { intros l l' Hp Hn u o Hl.
      apply store_origin in Hl as [Hin|Hl]; [|by rewrite lookup_empty in Hl].
      apply elem_of_json_stores in Hin as (r & Hin & Hr & <- & <-).
      apply json_stores_NoDup; [by rewrite <- Hp|by rewrite <- Hp|done]. }
    apply map_eq. intros u.
    destruct (foldl store ∅ (omap _ rs) !! u) as [o|] eqn:Hl.
    + symmetry. by apply (Hone rs rs').
    + destruct (foldl store ∅ (omap _ rs') !! u) as [o'|] eqn:Hl'; [|done].
      apply (Hone rs' rs) in Hl'; [|done|done]. congruence.
Qed.

(** X14: inspect ends with exit status 1 exactly when some fetch failed or,
    in JSON mode, the aggregate could not be written; in table mode the
    encoder plays no part; and in JSON mode a write error is what is
    returned, in place of the aggregate error, with no aggregate printed. *)
Theorem inspect_exit_iff (jsonOut : bool) (enc_err : option string)
    (rs : list result) :
  (exit_status (inspect_report jsonOut enc_err rs).2 = 1%Z
   ↔ (∃ r, r ∈ rs ∧ is_Some (err r)) ∨ (jsonOut = true ∧ is_Some enc_err))
  ∧ inspect_report false enc_err rs = inspect_report false None rs
  ∧ (∀ msg, (inspect_report true (Some msg) rs).2 = Some (ErrEncode msg)
            ∧ ∀ agg, OutJSON agg ∉ (inspect_report true (Some msg) rs).1).
Proof.
  split; [|split].
  - rewrite inspect_report_result, <- Exists_exists.
    destruct (decide (Exists (fun r => is_Some (err r)) rs)) as [He|Hn].
    + split; [by left|]. intros _. by destruct jsonOut, enc_err.
    + destruct jsonOut, enc_err as [msg|]; cbn;
        (split; [try done; intros _; right; eauto|]);
        intros [?|[? Hs]]; try done; by destruct Hs.
  - done.
  - intros msg. split; [done|]. intros agg.
    unfold inspect_report, inspect_finish, inspect_collect. cbn.
    rewrite collect_json_printed. cbn. intros Hin.
    apply list_elem_of_bind in Hin as (r & Hin & _).
    destruct (err r); [|by apply elem_of_nil in Hin].
    by apply list_elem_of_singleton in Hin.
Qed.

(** ** Inspect: gathering the URLs *)

Lemma scan_lines_filter (TrimSpace : string → string) (lines : list string) :
  ∀ acc, scan_lines TrimSpace acc lines
         = acc ++ filter (fun line => line ≠ "") (TrimSpace <$> lines).
Proof.
  induction lines as [|text lines IH]; intros acc.
  - by rewrite app_nil_r.
  - unfold scan_lines in *. cbn [foldl]. rewrite IH, fmap_cons, filter_cons.
    destruct (decide (TrimSpace text ≠ "")); [|done]. by rewrite <- app_assoc.
Qed.

Lemma gather_no_dash (TrimSpace : string → string) (args : list string) :
  ∀ stdin acc, "-" ∉ args → gather_urls TrimSpace args stdin acc = inr (acc ++ args).
Proof.
  induction args as [|a args IH]; intros stdin acc Hno.
  - by rewrite app_nil_r.
  - apply not_elem_of_cons in Hno as [Hne Hno]. cbn.
    destruct (String.eqb_spec a "-") as [->|_]; [done|].
    rewrite IH by done. by rewrite <- app_assoc.
Qed.

Lemma gather_acc (TrimSpace : string → string) (args : list string) :
  ∀ stdin acc urls,
    gather_urls TrimSpace args stdin acc = inr urls →
    ∃ more, urls = acc ++ more
      ∧ (∀ u, u ∈ more →
           (u ∈ args ∧ u ≠ "-")
           ∨ (u ≠ "" ∧ ∃ session text,
                session ∈ stdin ∧ text ∈ session.1 ∧ u = TrimSpace text))
      ∧ filter (fun a => a ≠ "-") args `sublist_of` more.
Proof.
  induction args as [|a args IH]; intros stdin acc urls Hg.
  - injection Hg as <-. exists []. rewrite app_nil_r. split; [done|].
    split; [by intros u ?%elem_of_nil|done].
  - cbn in Hg. rewrite filter_cons.
    destruct (String.eqb_spec a "-") as [->|Hne].
    + rewrite decide_False by (by intros ?).
      destruct stdin as [|[lines e] stdin']; cbn in Hg.
      * apply IH in Hg as (more & -> & Hfrom & Hsub). exists more.
        split; [done|]. split; [|done].
        intros u Hu. destruct (Hfrom u Hu) as [[? ?]|(? & s & ? & Hs & _)].
        -- left. split; [by right|done].
        -- by apply elem_of_nil in Hs.
      * destruct e as [msg|]; [done|].
        apply IH in Hg as (more & -> & Hfrom & Hsub).
        rewrite scan_lines_filter, <- app_assoc.
        eexists. split; [done|]. split.
        -- intros u [Hu|Hu]%elem_of_app.
           ++ apply list_elem_of_filter in Hu as [Hnb Hu].
              apply list_elem_of_fmap in Hu as (text & -> & Htext).
              right. split; [done|]. exists (lines, None), text.
              split; [by left|done].
           ++ destruct (Hfrom u Hu) as [[? ?]|(? & s & text & Hs & Ht & ->)].
              ** left. split; [by right|done].
              ** right. split; [done|]. exists s, text. split; [by right|done].
        -- by apply sublist_inserts_l.
    + rewrite decide_True by done.
      apply IH in Hg as (more & -> & Hfrom & Hsub).
      rewrite <- app_assoc. eexists. split; [done|]. split.
      * intros u [Hu|Hu]%elem_of_cons.
        -- subst u. left. split; [by left|done].
        -- destruct (Hfrom u Hu) as [[? ?]|?]; [left|by right].
           split; [by right|done].
      * by apply sublist_skip.
Qed.

(** X15: the URLs inspect works on: without a dash among the arguments
    they are the arguments as given; in general every argument other than
    the dash is submitted, in order, and every other URL is a line of
    standard input, trimmed and not empty; when no URL is gathered the
    command fails with the no-URLs error, and when a scanner fails with its
    error, in both cases whatever the schedule, so before any fetch. *)
Theorem gather_urls_spec `{!Host} (TrimSpace : string → string)
    (jsonOut : bool) (nworkers : Z) (enc_err : option string)
    (args : list string) (stdin : list (list string * option string)) :
  ("-" ∉ args → gather_urls TrimSpace args stdin [] = inr args)
  ∧ (∀ urls, gather_urls TrimSpace args stdin [] = inr urls →
       filter (fun a => a ≠ "-") args `sublist_of` urls
       ∧ ∀ u, u ∈ urls →
           (u ∈ args ∧ u ≠ "-")
           ∨ (u ≠ "" ∧ ∃ session text,
                session ∈ stdin ∧ text ∈ session.1 ∧ u = TrimSpace text))
  ∧ (gather_urls TrimSpace args stdin [] = inr [] →
     ∀ es, inspect_cmd TrimSpace jsonOut nworkers enc_err args stdin es
           = Some ([], Some (RunError ErrNoURLs)))
  ∧ (∀ msg, gather_urls TrimSpace args stdin [] = inl msg →
     ∀ es, inspect_cmd TrimSpace jsonOut nworkers enc_err args stdin es
           = Some ([], Some (ScanError msg))).
Proof.
  split; [|split; [|split]].
  - intros Hno. by rewrite gather_no_dash.
  - intros urls Hg. apply gather_acc in Hg as (more & -> & Hfrom & Hsub). done.
  - intros Hg es. unfold inspect_cmd. by rewrite Hg.
  - intros msg Hg es. unfold inspect_cmd. by rewrite Hg.
Qed.

(** ** Monitor: cancellation and delivery *)

Lemma monitor_quiet_step `{!Host} s e s' :
  ctx_done s = false → control_live s = true → diffChan_closed s = false →
  monitor_step s e = Some s' → e ≠ MCancel →
  ctx_done s' = false ∧ control_live s' = true ∧ diffChan_closed s' = false
  ∧ render_live s' = true ∧ mon_panic s' = false
  ∧ e ≠ MDone ∧ e ≠ MRenderExit.
Proof.
  intros Hctx Hctl Hcl Hstep Hne. unfold monitor_step in Hstep.
  destruct (mon_panic s || negb (render_live s)) eqn:Hlive; [done|].
  apply orb_false_iff in Hlive as [Hp Hr]. apply negb_false_iff in Hr.
  rewrite ?Hctx, ?Hctl, ?Hcl in Hstep.
  destruct e as [| | |i resp now|i|]; try done.
  - injection Hstep as <-. by cbn.
  - destruct (fetchers s !! i) as [[|ev|]|]; try done.
    destruct (fetchHTML resp); injection Hstep as <-; by cbn.
  - destruct (fetchers s !! i) as [[|ev|]|]; try done.
    destruct (render (prev s) ev). injection Hstep as <-. by cbn.
Qed.

Lemma monitor_quiet_run `{!Host} es : ∀ s0 s,
  ctx_done s0 = false → control_live s0 = true → diffChan_closed s0 = false →
  monitor_run s0 es = Some s → (MCancel ∉ es) →
  (es = [] ∨ (render_live s = true ∧ mon_panic s = false))
  ∧ ctx_done s = false ∧ control_live s = true ∧ diffChan_closed s = false
  ∧ (MDone ∉ es) ∧ (MRenderExit ∉ es).
Proof.
  induction es as [|e es IH]; intros s0 s H1 H2 H3 Hrun Hno.
  - injection Hrun as <-. repeat split; try done; try (by intros ?%elem_of_nil).
    by left.
  - cbn in Hrun. destruct (monitor_step s0 e) as [s1|] eqn:Hstep; [|done].
    apply not_elem_of_cons in Hno as [Hne Hno].
    destruct (monitor_quiet_step s0 e s1 H1 H2 H3 Hstep)
      as (G1 & G2 & G3 & G4 & G5 & G6 & G7); [done|].
    destruct (IH s1 s G1 G2 G3 Hrun Hno) as (Hl & ? & ? & ? & ? & ?).
    repeat split; try done; try (by apply not_elem_of_cons).
    right. destruct Hl as [->|?]; [|done]. by injection Hrun as <-.
Qed.

Lemma monitor_start_panics (interval : Z) :
  monitor_start interval = Panics ↔ (seconds interval <= 0)%Z.
Proof.
  unfold monitor_start. destruct (Z.leb_spec (seconds interval) 0); split;
    try done; lia.
Qed.

Lemma seconds_small (n : Z) :
  (-9223372036 <= n <= 9223372036)%Z → seconds n = (n * 1000000000)%Z.
Proof.
  intros Hn. unfold seconds, wrap64.
  rewrite Z.mod_small by lia. lia.
Qed.

(** X16: the monitor command panics at once, in [time.NewTicker], when
    the interval in nanoseconds, wrapped to 64 bits, is not positive, as
    for every interval from -9223372036 to 0 seconds; when the ticker
    starts and the command context is not cancelled, the monitor neither
    panics nor stops: after every run without a cancellation the control
    loop and the render loop are live, the event channel is open, and the
    next tick can be dispatched. *)
Theorem monitor_runs_until_cancelled `{!Host} (interval : Z) (s0 s : monitor)
    (es : list monitor_event) :
  monitor_start interval = Returns s0 →
  monitor_run s0 es = Some s → (MCancel ∉ es) →
  (0 < seconds interval)%Z
  ∧ mon_panic s = false ∧ render_live s = true ∧ control_live s = true
  ∧ diffChan_closed s = false
  ∧ (MDone ∉ es) ∧ (MRenderExit ∉ es)
  ∧ is_Some (monitor_step s MTick)
  ∧ (∀ n, monitor_start n = Panics ↔ (seconds n <= 0)%Z)
  ∧ (∀ n, (-9223372036 <= n <= 0)%Z → monitor_start n = Panics)
  ∧ (∀ n, (0 < n <= 9223372036)%Z → monitor_start n = Returns monitor_init).
Proof.
  intros Hstart Hrun Hno.
  assert ((0 < seconds interval)%Z ∧ s0 = monitor_init) as [Hpos ->].
  { unfold monitor_start in Hstart.
    destruct (Z.leb_spec (seconds interval) 0); [done|].
    injection Hstart as <-. done. }
  destruct (monitor_quiet_run es monitor_init s) as (Hl & ? & Hctl & ? & ? & ?);
    try done.
  assert (render_live s = true ∧ mon_panic s = false) as [Hr Hp].
  { destruct Hl as [->|?]; [|done]. by injection Hrun as <-. }
  split; [done|]. do 6 (split; [done|]). split.
  { unfold monitor_step. rewrite Hp, Hr, Hctl. cbn. eauto. }
  split; [apply monitor_start_panics|]. split.
  - intros n Hn. apply monitor_start_panics. rewrite seconds_small by lia. lia.
  - intros n Hn. unfold monitor_start. rewrite seconds_small by lia.
    by destruct (Z.leb_spec (n * 1000000000) 0); [lia|].
Qed.

(** X17: an event is handed to the render loop at most once, and a fetch
    returns at most once: after a delivery the fetch goroutine has returned
    for good, so in no later state can it deliver or complete again. *)
Theorem monitor_delivers_once `{!Host} (s s' s'' : monitor) (i : nat)
    (es : list monitor_event) :
  monitor_step s (MDeliver i) = Some s' → mon_panic s' = false →
  monitor_run s' es = Some s'' →
  fetchers s'' !! i = Some FReturned
  ∧ monitor_step s'' (MDeliver i) = None
  ∧ ∀ resp now, monitor_step s'' (MFetched i resp now) = None.
Proof.
  intros Hstep Hp Hrun.
  assert (∃ ev, fetchers s !! i = Some (FSending ev)) as [ev Hi].
  { unfold monitor_step in Hstep.
    destruct (mon_panic s || negb (render_live s)); [done|].
    destruct (fetchers s !! i) as [[|ev|]|]; try done. by exists ev. }
  destruct (monitor_deliver s i ev s' Hi Hstep Hp) as (_ & _ & _ & Hfs).
  assert (fetchers s' !! i = Some FReturned) as Hret.
  { rewrite Hfs. apply list_lookup_insert_eq. by eapply lookup_lt_Some. }
  pose proof (returned_stays es s' s'' i Hret Hrun) as Hlast.
  split; [done|].
  unfold monitor_step. rewrite Hlast.
  by destruct (mon_panic s'' || negb (render_live s'')).
Qed.



(** X19: a delivered event prints a ChangeSet exactly when its snapshot
    reads differently from the baseline at some key, and then prints the
    ChangeSet of the two; in both cases the snapshot becomes the new
    baseline. *)
Theorem monitor_render_iff_changed `{!Host} (s s' : monitor) (i : nat) (ev : event) :
  fetchers s !! i = Some (FSending ev) →
  monitor_step s (MDeliver i) = Some s' → mon_panic s' = false →
  prev s' = ev_og ev
  ∧ (shown s' = shown s ↔ ∀ k, get (prev s) k = get (ev_og ev) k)
  ∧ (shown s' = shown s
     ∨ shown s' = shown s ++ [OutDiff (ts ev) (diffMaps (prev s) (ev_og ev))]).
Proof.
  intros Hi Hstep Hp.
  destruct (monitor_deliver s i ev s' Hi Hstep Hp) as (_ & Hb & Hs & _).
  unfold render in Hb, Hs. cbn in Hb, Hs. split; [done|].
  rewrite <- diffMaps_empty_iff, Hs.
  destruct (decide (0 < size (diffMaps (prev s) (ev_og ev)))) as [Hpos|Hz]; cbn.
  - split; [|by right]. split.
    + intros Heq. apply (f_equal length) in Heq.
      rewrite length_app in Heq. cbn in Heq. lia.
    + intros Hd. rewrite Hd, map_size_empty in Hpos. lia.
  - rewrite app_nil_r. split; [|by left]. split; [|done].
    intros _. apply map_size_empty_iff. lia.
Qed.

(** ** printUnified and printTable *)

Lemma printUnified_fold (kvs : list (string * (string * string))) : ∀ out,
  foldl printUnified_step out kvs
  = out ++ (kvs ≫= fun kv =>
      ("@@ og:" +:+ kv.1 +:+ " @@")
      :: (if decide (kv.2.1 ≠ "") then ["- " +:+ kv.2.1] else [])
         ++ (if decide (kv.2.2 ≠ "") then ["+ " +:+ kv.2.2] else [])).
Proof.
  induction kvs as [|kv kvs IH]; intros out.
  - by rewrite app_nil_r.
  - cbn [foldl]. rewrite IH, bind_cons. unfold printUnified_step.
    repeat case_decide; rewrite <- ?app_assoc; done.
Qed.

Lemma bind_ext_Forall {A B} (f g : A → list B) (l : list A) :
  Forall (fun x => f x = g x) l → l ≫= f = l ≫= g.
Proof. induction 1 as [|x l Hx _ IH]; [done|]. by rewrite !bind_cons, Hx, IH. Qed.

Lemma bind_length_between {A B} (f : A → list B) (l : list A) (lo hi : nat) :
  Forall (fun x => lo <= length (f x) <= hi)%nat l →
  (lo * length l <= length (l ≫= f) <= hi * length l)%nat.
Proof.
  induction 1 as [|x l Hx _ IH]; [cbn; lia|].
  rewrite bind_cons, length_app. cbn [length]. lia.
Qed.

(** X20: for a ChangeSet computed by [diffMaps], in whatever order the
    map yields its entries, [printUnified] prints, entry after entry, the
    header of the entry followed by the old value after a minus sign and
    the new value after a plus sign, the line of an empty side being left
    out: an added key shows the plus line only, a removed key the minus
    line only, and no entry shows the header alone; two orders give the
    same lines up to the order of the entries, two or three per entry. *)
Theorem printUnified_hunks (old new : Snapshot)
    (kvs : list (string * (string * string))) :
  kvs ≡ₚ map_to_list (diffMaps old new) →
  printUnified_over kvs
  = (kvs ≫= fun kv =>
       ("@@ og:" +:+ kv.1 +:+ " @@")
       :: (if decide (kv.2.1 = "") then ["+ " +:+ kv.2.2]
           else if decide (kv.2.2 = "") then ["- " +:+ kv.2.1]
           else ["- " +:+ kv.2.1; "+ " +:+ kv.2.2]))
  ∧ printUnified_over kvs ≡ₚ printUnified (diffMaps old new)
  ∧ (2 * size (diffMaps old new) <= length (printUnified_over kvs)
     <= 3 * size (diffMaps old new))%nat.
Proof.
  intros Hperm.
  assert (Forall (fun kv : string * (string * string) => kv.2.1 ≠ kv.2.2) kvs)
    as Hdiff.
  { rewrite Hperm. apply Forall_forall. intros [k [o n]] Hin. cbn.
    apply elem_of_map_to_list in Hin. rewrite diffMaps_lookup in Hin.
    destruct (decide (get old k = get new k)); [done|]. by injection Hin as <- <-. }
  assert (printUnified_over kvs
          = (kvs ≫= fun kv =>
               ("@@ og:" +:+ kv.1 +:+ " @@")
               :: (if decide (kv.2.1 = "") then ["+ " +:+ kv.2.2]
                   else if decide (kv.2.2 = "") then ["- " +:+ kv.2.1]
                   else ["- " +:+ kv.2.1; "+ " +:+ kv.2.2]))) as Hout.
  { unfold printUnified_over. rewrite printUnified_fold. cbn [app].
    apply bind_ext_Forall. eapply Forall_impl; [exact Hdiff|].
    intros [k [o n]] Hne. cbn in Hne |- *. f_equal.
    destruct (decide (o = "")) as [->|Ho], (decide (n = "")) as [->|Hn];
      try done.
    - rewrite decide_False by (by intros ?). by rewrite decide_True.
    - rewrite decide_True by done. by rewrite decide_False by (by intros ?).
    - by rewrite !decide_True. }
  split; [done|]. split.
  - unfold printUnified, printUnified_over. rewrite !printUnified_fold. cbn [app].
    by rewrite Hperm.
  - rewrite Hout, <- length_map_to_list, <- Hperm.
    apply bind_length_between. eapply Forall_impl; [exact Hdiff|].
    intros [k [o n]] Hne. cbn in Hne |- *.
    repeat case_decide; cbn [length]; lia.
Qed.

Lemma ascii_compare_Lt_trans (a b c : ascii) :
  Ascii.compare a b = Lt → Ascii.compare b c = Lt → Ascii.compare a c = Lt.
Proof.
  unfold Ascii.compare. rewrite !N.compare_lt_iff. lia.
Qed.

Lemma string_compare_trans (s1 : string) : ∀ s2 s3,
  String.compare s1 s2 ≠ Gt → String.compare s2 s3 ≠ Gt →
  String.compare s1 s3 ≠ Gt.
Proof.
  induction s1 as [|a s1 IH]; intros [|b s2] [|c s3]; cbn; try done.
  destruct (Ascii.compare a b) eqn:Hab; [| |done].
  - apply Ascii.compare_eq_iff in Hab as ->.
    destruct (Ascii.compare b c); [apply IH|done|done].
  - destruct (Ascii.compare b c) eqn:Hbc; [| |done].
    + apply Ascii.compare_eq_iff in Hbc as ->. by rewrite Hab.
    + by rewrite (ascii_compare_Lt_trans a b c).
Qed.

Lemma string_le_compare (s1 s2 : string) :
  string_le s1 s2 ↔ String.compare s1 s2 ≠ Gt.
Proof. unfold string_le, String.leb. by destruct (String.compare s1 s2). Qed.

#[local] Instance string_le_trans : Transitive string_le.
Proof.
  intros s1 s2 s3. rewrite !string_le_compare. apply string_compare_trans.
Qed.

#[local] Instance string_le_total : Total string_le.
Proof. intros s1 s2. apply String.leb_total. Qed.

#[local] Instance string_le_antisym : AntiSymm (=) string_le.
Proof. intros s1 s2. apply String.leb_antisym. Qed.

Lemma table_rows_of_keys (og : Snapshot) :
  (fun k => (k, get og k)) <$> range_keys og = map_to_list og.
Proof.
  unfold range_keys. rewrite <- list_fmap_compose.
  rewrite <- (list_fmap_id (map_to_list og)) at 2.
  apply Forall_fmap_ext, Forall_forall. intros [k v] Hkv. cbn.
  apply elem_of_map_to_list in Hkv. by rewrite (get_Some _ _ _ Hkv).
Qed.

(** X21: [printTable] prints one row per key of the snapshot, with the
    value of that key, in ascending byte-wise order of the keys; the rows
    determine the snapshot; and they are the same whatever the order in
    which the map yields its keys. *)
Theorem printTable_sorted (og : Snapshot) :
  StronglySorted string_le (printTable og).*1
  ∧ NoDup (printTable og).*1
  ∧ printTable og ≡ₚ map_to_list og
  ∧ list_to_map (printTable og) = og
  ∧ (∀ ks, ks ≡ₚ range_keys og → table_rows og ks = printTable og).
Proof.
  assert ((printTable og).*1 = sort_Strings (range_keys og)) as Hkeys.
  { unfold printTable, table_rows. rewrite <- list_fmap_compose.
    apply list_fmap_id. }
  assert (printTable og ≡ₚ map_to_list og) as Hperm.
  { unfold printTable, table_rows, sort_Strings.
    rewrite merge_sort_Permutation. by rewrite table_rows_of_keys. }
  assert (NoDup (printTable og).*1) as Hnd.
  { rewrite Hperm. apply NoDup_fst_map_to_list. }
  split; [|split; [done|split; [done|split]]].
  - rewrite Hkeys. apply StronglySorted_merge_sort; apply _.
  - rewrite (list_to_map_proper _ (map_to_list og)) by done.
    apply list_to_map_to_list.
  - intros ks Hks. unfold printTable, table_rows. f_equal.
    apply (Sorted_unique string_le).
    + apply Sorted_merge_sort; apply _.
    + apply Sorted_merge_sort; apply _.
    + unfold sort_Strings. by rewrite !merge_sort_Permutation.
Qed.

(** * Concrete runs *)

#[local] Existing Instance sample_host.

(** [TestDiffMaps] of [main_test.go]. *)
Example TestDiffMaps :
  let old : Snapshot := {["title" := "Old"; "image" := "A"]} in
  let new : Snapshot := {["title" := "New"; "image" := "A"; "type" := "article"]} in
  diffMaps old new = {["title" := ("Old", "New"); "type" := ("", "article")]}.
Proof. vm_compute. reflexivity. Qed.

(** A removed key: present in the old snapshot only, with a value. *)
Lemma diffMaps_one_sided_witness :
  ((({["title" := "Hello"]} : Snapshot) !! "title" = Some "Hello"
    ∧ (∅ : Snapshot) !! "title" = None)
   ∨ (({["title" := "Hello"]} : Snapshot) !! "title" = None
      ∧ (∅ : Snapshot) !! "title" = Some "Hello"))
  ∧ diffMaps {["title" := "Hello"]} ∅ !! "title" = Some ("Hello", "").
Proof.
  assert ((({["title" := "Hello"]} : Snapshot) !! "title" = Some "Hello"
           ∧ (∅ : Snapshot) !! "title" = None)
          ∨ (({["title" := "Hello"]} : Snapshot) !! "title" = None
             ∧ (∅ : Snapshot) !! "title" = Some "Hello")) as Hside.
  { left. split; vm_compute; reflexivity. }
  split; [exact Hside|].
  destruct (diffMaps_one_sided {["title" := "Hello"]} ∅ "title" "Hello" Hside)
    as [Hd _].
  rewrite Hd. vm_compute. reflexivity.
Defined.

(** C7 as stated fails: a key that only the old snapshot has, with the
    empty string as its value, is not in the ChangeSet. *)
Lemma diffMaps_one_sided_cex :
  ¬ (∀ (old new : Snapshot) (k : string),
       (is_Some (old !! k) ∧ new !! k = None)
       ∨ (old !! k = None ∧ is_Some (new !! k)) →
       is_Some (diffMaps old new !! k)).
Proof.
  intros Hclaim.
  destruct (Hclaim {["title" := ""]} ∅ "title") as [pair Hpair].
  - left. split; [exists ""|]; vm_compute; reflexivity.
  - vm_compute in Hpair. discriminate.
Qed.

(** Two URLs, worker count left to the host (four CPUs, capped at two):
    the first fetch times out, the second succeeds and is received first. *)
Lemma pool_delivers_every_url_witness :
  ∃ s,
    ["a"; "b"] ≠ []
    ∧ pool_run (pool_init 0 ["a"; "b"]) two_workers_run = Some s
    ∧ pool_size 0 ["a"; "b"] = 2%Z
    ∧ url <$> received s = ["b"; "a"]
    ∧ url <$> received s ≡ₚ ["a"; "b"]
    ∧ steps_left s = 0.
Proof.
  assert (["a"; "b"] ≠ []) as Hne by done.
  destruct (pool_run (pool_init 0 ["a"; "b"]) two_workers_run)
    as [s|] eqn:Hrun; [|vm_compute in Hrun; discriminate].
  exists s.
  pose proof (pool_delivers_every_url 0 ["a"; "b"] _ s Hne Hrun)
    as (_ & _ & _ & _ & Hsteps & Hclosed & _).
  vm_compute in Hrun. injection Hrun as <-.
  split; [exact Hne|]. split; [reflexivity|]. split; [reflexivity|].
  split; [reflexivity|]. split; [exact (proj1 (Hclosed eq_refl))|].
  reflexivity.
Defined.

(** One worker, two URLs, JSON output: the first fetch is answered 503, the
    second succeeds; the batch fails and the success is in the aggregate. *)
Lemma inspect_reports_after_all_witness :
  ["a"; "b"] ≠ []
  ∧ inspect true 1 None ["a"; "b"]
      (one_worker_run (Reply 503 "503 Service Unavailable" (inl ""))
                      (ok_reply hello_page))
    = Some ([OutFetchError "a" (ErrStatus 503 "503 Service Unavailable");
             OutJSON {["b" := {["title" := "Hello"]}]}],
            Some ErrInspection)
  ∧ ∃ rs, url <$> rs ≡ₚ ["a"; "b"] ∧ ∃ r, r ∈ rs ∧ is_Some (err r).
Proof.
  assert (["a"; "b"] ≠ []) as Hne by done.
  assert (inspect true 1 None ["a"; "b"]
            (one_worker_run (Reply 503 "503 Service Unavailable" (inl ""))
                            (ok_reply hello_page))
          = Some ([OutFetchError "a" (ErrStatus 503 "503 Service Unavailable");
                   OutJSON {["b" := {["title" := "Hello"]}]}],
                  Some ErrInspection)) as Hrun
    by (vm_compute; reflexivity).
  split; [exact Hne|]. split; [exact Hrun|].
  destruct (inspect_reports_after_all _ _ _ _ _ _ _ Hne Hrun)
    as (rs & Hperm & _ & _ & Hfail & _).
  exists rs. split; [exact Hperm|]. exact (proj1 (proj1 Hfail eq_refl)).
Defined.

(** C4 as stated fails, twice.  The same URL submitted twice in JSON
    mode, both fetches succeed with different pages: the aggregate keeps
    the second snapshot only, so the first successful result is not in the
    output.  And one URL in JSON mode, the fetch succeeds but the aggregate
    cannot be written: the command returns an error although no fetch
    failed. *)
Lemma inspect_json_same_url_cex :
  received <$> pool_run (pool_init 1 ["a"; "a"])
                 (one_worker_run (ok_reply hello_page) (ok_reply bye_page))
  = Some [hello_result; bye_result]
  ∧ inspect true 1 None ["a"; "a"]
      (one_worker_run (ok_reply hello_page) (ok_reply bye_page))
    = Some ([OutJSON {["a" := {["title" := "Bye"]}]}], None)
  ∧ ¬ (∀ r, r ∈ [hello_result; bye_result] → err r = None →
         ∃ agg,
           OutJSON agg ∈ (inspect_report true None [hello_result; bye_result]).1
           ∧ agg !! url r = Some (og r))
  ∧ inspect true 1 (Some "broken pipe") ["a"]
      [PTask 0; PFetched 0 (ok_reply hello_page); PResult 0;
       PCloseTasks; PReturn 0; PCloseResults]
    = Some ([], Some (ErrEncode "broken pipe"))
  ∧ ¬ (∀ enc_err,
         is_Some (inspect_report true enc_err [hello_result]).2
         ↔ ∃ r, r ∈ [hello_result] ∧ is_Some (err r)).
Proof.
  split; [vm_compute; reflexivity|].
  split; [vm_compute; reflexivity|].
  split; [|split; [vm_compute; reflexivity|]].
  - intros Hclaim.
    destruct (Hclaim hello_result) as (agg & Hin & Hagg); [by left|done|].
    assert ((inspect_report true None [hello_result; bye_result]).1
            = [OutJSON {["a" := {["title" := "Bye"]}]}]) as Hout
      by (vm_compute; reflexivity).
    rewrite Hout in Hin.
    apply list_elem_of_singleton in Hin. injection Hin as ->.
    vm_compute in Hagg. discriminate.
  - intros Hclaim.
    destruct (proj1 (Hclaim (Some "broken pipe"))) as (r & Hin & Hr).
    + by eexists.
    + apply list_elem_of_singleton in Hin. subst r. by destruct Hr.
Qed.

(** Two cycles of a monitor on the same page: tick, fetch, delivery, then
    tick, fetch, delivery again. *)
Lemma monitor_first_cycle_witness :
  monitor_run monitor_init [MTick; MFetched 0 (ok_reply hello_page) "t1"]
  = Some hello_waiting
  ∧ Forall (fun e => is_deliver e = false)
      [MTick; MFetched 0 (ok_reply hello_page) "t1"]
  ∧ fetchers hello_waiting !! 0 = Some (FSending hello_event)
  ∧ monitor_step hello_waiting (MDeliver 0) = Some hello_delivered
  ∧ mon_panic hello_delivered = false
  ∧ monitor_run hello_delivered [MTick; MFetched 1 (ok_reply hello_page) "t2"]
    = Some hello_waiting_again
  ∧ monitor_step hello_waiting_again (MDeliver 1) = Some hello_delivered_again
  ∧ shown hello_delivered_again = shown hello_waiting_again
  ∧ prev hello_delivered_again = {["title" := "Hello"]}.
Proof.
  assert (monitor_run monitor_init [MTick; MFetched 0 (ok_reply hello_page) "t1"]
          = Some hello_waiting) as Hrun0 by (vm_compute; reflexivity).
  assert (Forall (fun e => is_deliver e = false)
            [MTick; MFetched 0 (ok_reply hello_page) "t1"]) as Hno0
    by (repeat constructor).
  assert (fetchers hello_waiting !! 0 = Some (FSending hello_event)) as Hf
    by reflexivity.
  assert (monitor_step hello_waiting (MDeliver 0) = Some hello_delivered)
    as Hstep by (vm_compute; reflexivity).
  assert (mon_panic hello_delivered = false) as Hp by reflexivity.
  assert (monitor_run hello_delivered
            [MTick; MFetched 1 (ok_reply hello_page) "t2"]
          = Some hello_waiting_again) as Hrun1 by (vm_compute; reflexivity).
  assert (Forall (fun e => is_deliver e = false)
            [MTick; MFetched 1 (ok_reply hello_page) "t2"]) as Hno1
    by (repeat constructor).
  assert (fetchers hello_waiting_again !! 1 = Some (FSending hello_again))
    as Hf1 by reflexivity.
  assert (monitor_step hello_waiting_again (MDeliver 1)
          = Some hello_delivered_again) as Hstep2 by (vm_compute; reflexivity).
  assert (mon_panic hello_delivered_again = false) as Hp2 by reflexivity.
  pose proof (monitor_first_cycle _ hello_waiting hello_delivered 0 hello_event
                Hrun0 Hno0 Hf Hstep Hp)
    as (_ & _ & _ & _ & _ & _ & Hnext).
  pose proof (Hnext _ hello_waiting_again 1 hello_again hello_delivered_again
                Hrun1 Hno1 Hf1 eq_refl Hstep2 Hp2)
    as (_ & _ & Hsame & Hbase & _).
  split; [exact Hrun0|]. split; [exact Hno0|]. split; [exact Hf|].
  split; [exact Hstep|]. split; [exact Hp|]. split; [exact Hrun1|].
  split; [exact Hstep2|]. split; [exact Hsame|exact Hbase].
Defined.

(** C3 as stated fails: the page carries og:title with empty content; the
    key is extracted, but the first cycle yields the empty ChangeSet and
    prints nothing. *)
Lemma monitor_first_cycle_cex :
  parseOG blank_page !! "title" = Some ""
  ∧ diffMaps ∅ (parseOG blank_page) = ∅
  ∧ (shown <$> monitor_run monitor_init
                 [MTick; MFetched 0 (ok_reply blank_page) "t1"; MDeliver 0])
    = Some []
  ∧ ¬ (∀ k v, parseOG blank_page !! k = Some v →
         diffMaps ∅ (parseOG blank_page) !! k = Some ("", v)).
Proof.
  split; [vm_compute; reflexivity|].
  split; [vm_compute; reflexivity|]. split; [vm_compute; reflexivity|].
  intros Hclaim.
  assert (parseOG blank_page !! "title" = Some "") as Hk
    by (vm_compute; reflexivity).
  apply Hclaim in Hk. vm_compute in Hk. discriminate.
Qed.

(** A monitor with one fetch in flight that is answered 404. *)
Lemma monitor_fetch_failure_witness :
  ∃ s',
    fetchHTML not_found = inr (ErrStatus 404 "404 Not Found")
    ∧ monitor_step first_in_flight (MFetched 0 not_found "t1") = Some s'
    ∧ prev s' = ∅ ∧ pending s' = []
    ∧ shown s' = [OutError (ErrStatus 404 "404 Not Found")]
    ∧ control_live s' = true.
Proof.
  destruct (monitor_step first_in_flight (MFetched 0 not_found "t1"))
    as [s'|] eqn:Hstep; [|vm_compute in Hstep; discriminate].
  exists s'.
  assert (fetchHTML not_found = inr (ErrStatus 404 "404 Not Found")) as Hfail
    by reflexivity.
  pose proof (monitor_fetch_failure first_in_flight s' 0 not_found "t1" _ Hfail Hstep)
    as (Hprev & Hpend & Hshown & _ & _ & _ & Hctl & _).
  split; [exact Hfail|]. split; [reflexivity|].
  split; [exact Hprev|]. split; [exact Hpend|].
  split; [exact Hshown|exact Hctl].
Defined.

(** [TestParseOG] of [main_test.go], cut down to a page of the sample host. *)
Example parseOG_sample : parseOG hello_page = {["title" := "Hello"]}.
Proof. vm_compute. reflexivity. Qed.

(** A page whose og:title is present but empty fails validation. *)
Example validate_empty_title :
  validate true false (ok_reply blank_page)
  = Returns
      ([OutMissing ["og:title"; "og:type"; "og:image"; "og:url"; "og:description"]],
       Some ErrMissingTags).
Proof. vm_compute. reflexivity. Qed.

(** Both workers busy: two URLs in flight, the worker count. *)
Lemma pool_bounded_parallelism_witness :
  ∃ s,
    pool_run (pool_init 0 ["a"; "b"]) [PTask 0; PTask 1] = Some s
    ∧ in_flight s = ["a"; "b"]
    ∧ (length (in_flight s) <= Z.to_nat (pool_size 0 ["a"; "b"]))%nat.
Proof.
  destruct (pool_run (pool_init 0 ["a"; "b"]) [PTask 0; PTask 1])
    as [s|] eqn:Hrun; [|vm_compute in Hrun; discriminate].
  exists s.
  pose proof (pool_bounded_parallelism 0 ["a"; "b"] _ s Hrun) as (Hb & _).
  vm_compute in Hrun. injection Hrun as <-.
  split; [reflexivity|]. split; [reflexivity|exact Hb].
Defined.

(** The complete run of two workers on two URLs has ten steps. *)
Lemma pool_closed_terminal_witness :
  ∃ s,
    ["a"; "b"] ≠ []
    ∧ pool_run (pool_init 0 ["a"; "b"]) two_workers_run = Some s
    ∧ results_closed s = true
    ∧ length two_workers_run = 10
    ∧ pool_step s (PResult 0) = None.
Proof.
  assert (["a"; "b"] ≠ []) as Hne by done.
  destruct (pool_run (pool_init 0 ["a"; "b"]) two_workers_run)
    as [s|] eqn:Hrun; [|vm_compute in Hrun; discriminate].
  exists s.
  assert (results_closed s = true) as Hrc.
  { vm_compute in Hrun. injection Hrun as <-. reflexivity. }
  pose proof (pool_closed_terminal 0 ["a"; "b"] _ s Hne Hrun Hrc)
    as (_ & _ & _ & _ & Hlen & Hstop).
  split; [exact Hne|]. split; [reflexivity|]. split; [exact Hrc|].
  split; [reflexivity|exact (Hstop (PResult 0))].
Defined.

(** A success and a failure, received in either order. *)
Lemma inspect_report_order_witness :
  [hello_result; {| url := "b"; og := ∅; err := Some (ErrTransport "timeout") |}]
  ≡ₚ [{| url := "b"; og := ∅; err := Some (ErrTransport "timeout") |}; hello_result]
  ∧ (inspect_report true None
       [hello_result;
        {| url := "b"; og := ∅; err := Some (ErrTransport "timeout") |}]).2
    = (inspect_report true None
         [{| url := "b"; og := ∅; err := Some (ErrTransport "timeout") |};
          hello_result]).2.
Proof.
  assert ([hello_result;
           {| url := "b"; og := ∅; err := Some (ErrTransport "timeout") |}]
          ≡ₚ [{| url := "b"; og := ∅; err := Some (ErrTransport "timeout") |};
              hello_result]) as Hperm by apply perm_swap.
  split; [exact Hperm|].
  exact (proj1 (proj2 (inspect_report_order true None _ _ Hperm))).
Defined.

(** One full cycle without cancellation, at the default interval of 300
    seconds. *)
Lemma monitor_runs_until_cancelled_witness :
  monitor_start 300 = Returns monitor_init
  ∧ monitor_run monitor_init
      [MTick; MFetched 0 (ok_reply hello_page) "t1"; MDeliver 0]
    = Some hello_delivered
  ∧ (MCancel ∉ [MTick; MFetched 0 (ok_reply hello_page) "t1"; MDeliver 0])
  ∧ mon_panic hello_delivered = false
  ∧ is_Some (monitor_step hello_delivered MTick).
Proof.
  assert (monitor_start 300 = Returns monitor_init) as Hstart
    by (vm_compute; reflexivity).
  assert (monitor_run monitor_init
            [MTick; MFetched 0 (ok_reply hello_page) "t1"; MDeliver 0]
          = Some hello_delivered) as Hrun by (vm_compute; reflexivity).
  assert (MCancel ∉ [MTick; MFetched 0 (ok_reply hello_page) "t1"; MDeliver 0])
    as Hno.
  { intros Hin. repeat (apply elem_of_cons in Hin as [Hin|Hin]; [discriminate|]).
    by apply elem_of_nil in Hin. }
  pose proof (monitor_runs_until_cancelled 300 monitor_init hello_delivered _
                Hstart Hrun Hno)
    as (_ & Hp & _ & _ & _ & _ & _ & Htick & _).
  split; [exact Hstart|]. split; [exact Hrun|]. split; [exact Hno|].
  split; [exact Hp|exact Htick].
Defined.

(** The hunks of a change set of two keys, in either order of the keys. *)
Lemma printUnified_hunks_witness :
  [("title", ("Old", "New")); ("image", ("", "A"))]
  ≡ₚ map_to_list (diffMaps {["title" := "Old"]}
                           {["title" := "New"; "image" := "A"]})
  ∧ printUnified_over [("title", ("Old", "New")); ("image", ("", "A"))]
    = ["@@ og:title @@"; "- Old"; "+ New"; "@@ og:image @@"; "+ A"].
Proof.
  assert ([("title", ("Old", "New")); ("image", ("", "A"))]
          ≡ₚ map_to_list (diffMaps {["title" := "Old"]}
                                   {["title" := "New"; "image" := "A"]}))
    as Hperm.
  { apply NoDup_Permutation.
    - apply NoDup_cons. split; [|apply NoDup_singleton].
      intros Hin. apply list_elem_of_singleton in Hin. discriminate.
    - apply NoDup_map_to_list.
    - intros [k [o n]]. rewrite elem_of_map_to_list.
      assert (diffMaps {["title" := "Old"]} {["title" := "New"; "image" := "A"]}
              = {["title" := ("Old", "New"); "image" := ("", "A")]}) as ->
        by (vm_compute; reflexivity).
      rewrite lookup_insert, lookup_singleton.
      rewrite !elem_of_cons, elem_of_nil.
      repeat case_decide; naive_solver. }
  split; [exact Hperm|].
  rewrite (proj1 (printUnified_hunks _ _ _ Hperm)). reflexivity.
Defined.

(** After the first delivery and one more tick, fetch 0 cannot deliver. *)
Lemma monitor_delivers_once_witness :
  ∃ s' s'',
    monitor_step hello_waiting (MDeliver 0) = Some s'
    ∧ mon_panic s' = false
    ∧ monitor_run s' [MTick] = Some s''
    ∧ monitor_step s'' (MDeliver 0) = None.
Proof.
  destruct (monitor_step hello_waiting (MDeliver 0)) as [s'|] eqn:Hstep;
    [|vm_compute in Hstep; discriminate].
  assert (mon_panic s' = false) as Hp.
  { vm_compute in Hstep. injection Hstep as <-. reflexivity. }
  destruct (monitor_run s' [MTick]) as [s''|] eqn:Hrun.
  2:{ vm_compute in Hstep. injection Hstep as <-.
      vm_compute in Hrun. discriminate. }
  exists s', s''.
  pose proof (monitor_delivers_once hello_waiting s' s'' 0 [MTick] Hstep Hp Hrun)
    as (_ & Hno & _).
  split; [reflexivity|]. split; [exact Hp|]. split; [exact Hrun|exact Hno].
Defined.


(** The first delivery changes the baseline and prints the ChangeSet. *)
Lemma monitor_render_iff_changed_witness :
  ∃ s',
    fetchers hello_waiting !! 0 = Some (FSending hello_event)
    ∧ monitor_step hello_waiting (MDeliver 0) = Some s'
    ∧ mon_panic s' = false
    ∧ prev s' = {["title" := "Hello"]}.
Proof.
  destruct (monitor_step hello_waiting (MDeliver 0)) as [s'|] eqn:Hstep;
    [|vm_compute in Hstep; discriminate].
  exists s'.
  assert (fetchers hello_waiting !! 0 = Some (FSending hello_event)) as Hf
    by reflexivity.
  assert (mon_panic s' = false) as Hp.
  { vm_compute in Hstep. injection Hstep as <-. reflexivity. }
  pose proof (monitor_render_iff_changed hello_waiting s' 0 hello_event Hf Hstep Hp)
    as (Hbase & _).
  split; [exact Hf|]. split; [reflexivity|]. split; [exact Hp|exact Hbase].
Defined.

(** [TestSemanticValidate] of [main_test.go]: an article with an insecure
    image and no author or section. *)
Example TestSemanticValidate :
  semanticValidate {["type" := "article"; "image" := "http://insecure/img.jpg"]}
  = Returns ["og:image should use HTTPS";
             "cannot HEAD og:image: no such host";
             "article:author is missing"; "article:section is missing"].
Proof. vm_compute. reflexivity. Qed.

(** Arguments and two lines of standard input, one of them blank. *)
Example gather_urls_sample :
  gather_urls (fun s => s) ["x"; "-"; "y"] [(["u"; ""], None)] []
  = inr ["x"; "u"; "y"].
Proof. reflexivity. Qed.

(** The rows of a table come out sorted. *)
Example printTable_sample :
  printTable {["type" := "article"; "image" := "A"; "title" := "T"]}
  = [("image", "A"); ("title", "T"); ("type", "article")].
Proof. vm_compute. reflexivity. Qed.
